(** * termdash: the axis scaling engine of the line chart

    A shallow embedding of package [numbers] (numbers/numbers.go), of the
    Y and X scales of package [axes] (widgets/linechart/axes/scale.go), and
    of the validation of the values and the width of the bars of package
    [barchart].

    Numbers are modelled as the program has them:
    - Go's [float64] is Rocq's primitive binary64 [float]: the same IEEE 754
      format and round-to-nearest-even arithmetic, so every literal and every
      operation below evaluates to the very bits the Go program computes
      (on a platform that does not fuse multiply and add, such as amd64);
    - Go's [int] is a 64-bit two's complement integer, modelled as [Z] with
      the wrap-around written out. *)

From Stdlib Require Import ZArith List Bool Lia Floats QArith Qabs.
From Stdlib Require Strings.String.
Import ListNotations.

Set Warnings "-inexact-float".
Local Open Scope Z_scope.

(** ** Go's [int] on a 64-bit platform *)

Module GoInt.

Definition MinInt64 : Z := - 2 ^ 63.
Definition MaxInt64 : Z := 2 ^ 63 - 1.
Definition MaxInt32 : Z := 2147483647.

(** Reduction of a mathematical integer into the 64-bit signed range. *)
Definition wrap (z : Z) : Z := (z + 2 ^ 63) mod 2 ^ 64 - 2 ^ 63.

Definition in_range (z : Z) : Prop := MinInt64 <= z <= MaxInt64.

Definition add (a b : Z) : Z := wrap (a + b).
Definition sub (a b : Z) : Z := wrap (a - b).
Definition mul (a b : Z) : Z := wrap (a * b).
(** Go's [/] truncates toward zero. *)
Definition quot (a b : Z) : Z := wrap (Z.quot a b).

End GoInt.

(** ** Go's [float64] and the functions of package [math] the code calls *)

Module GoFloat.

Local Open Scope float_scope.

(** [math.MaxFloat64] and [math.Pi], as the nearest binary64 values. *)
Definition MaxFloat64 : float := 0x1.fffffffffffffp+1023.
Definition Pi : float := 0x1.921fb54442d18p+1.

(** The conversion [float64(i)] of an [int]: the nearest binary64 value. *)
Definition of_int (z : Z) : float :=
  SF2Prim (binary_normalize prec emax z 0 false).

(** The integer part of a finite value, toward zero, as a mathematical
    integer. *)
Definition SFtrunc_Z (x : spec_float) : Z :=
  match x with
  | S754_finite s m e =>
      cond_Zopp s (if (e <? 0)%Z then Z.shiftr (Zpos m) (- e)
                   else Z.shiftl (Zpos m) e)
  | _ => 0%Z
  end.

(** The conversion [int(f)] of a [float64]: the fraction is discarded; a
    value that does not fit (NaN and the infinities included) converts to
    the most negative integer, as the amd64 instruction does (the language
    leaves that case to the implementation). *)
Definition to_int (x : float) : Z :=
  match Prim2SF x with
  | S754_zero _ => 0%Z
  | S754_finite _ _ _ as sx =>
      let z := SFtrunc_Z sx in
      if ((GoInt.MinInt64 <=? z) && (z <=? GoInt.MaxInt64))%Z then z
      else GoInt.MinInt64
  | _ => GoInt.MinInt64
  end.

(** [math.Trunc]: the integer value of [x]; zeros, infinities and NaN are
    returned as they are, and the sign is kept on a zero result. *)
Definition Trunc (x : float) : float :=
  match Prim2SF x with
  | S754_finite s m e =>
      if (e <? 0)%Z
      then SF2Prim (binary_normalize prec emax
                      (cond_Zopp s (Z.shiftr (Zpos m) (- e))) 0 s)
      else x
  | _ => x
  end.

(** [math.Floor]: the greatest integer value not above [x]. *)
Definition Floor (x : float) : float :=
  let t := Trunc x in
  if x <? t then t - 1 else t.

(** [math.Ceil], which Go defines as [-Floor(-x)]. *)
Definition Ceil (x : float) : float := - Floor (- x).

Definition Abs (x : float) : float := abs x.

(** [math.Copysign]: the magnitude of [x] with the sign of [y]. *)
Definition Copysign (x y : float) : float :=
  if get_sign y then - abs x else abs x.

End GoFloat.

(** ** Package numbers *)

Module numbers.

Import GoFloat.
Local Open Scope float_scope.

(** The loop of [multToNonZero] iterates on a float; the model gives it this
    many iterations, more than the 324 decades binary64 spans, and answers
    [None] when they are used up, which happens on a zero only. *)
Definition loop_fuel : nat := 400.

Fixpoint multToNonZero_loop (fuel : nat) (v : float) (mult : Z) : option Z :=
  match fuel with
  | O => None
  | S fuel' =>
      if v <? 0.1
      then multToNonZero_loop fuel' (v * 10) (GoInt.mul mult 10)
      else Some mult
  end.

(** [multToNonZero]: the multiplier that makes the first decimal place of
    the float non-zero.  The loop does not end on a zero. *)
Definition multToNonZero (f : float) : option Z :=
  let v := if f <? 0 then f * (-1) else f in
  multToNonZero_loop loop_fuel v 1.

(** [placesToMult]: the number of decimal places as a power of ten. *)
Definition placesToMult (places : Z) : Z :=
  let places := if (places <? 0)%Z then GoInt.mul places (-1) else places in
  Z.iter places (fun mult => GoInt.mul mult 10) 1%Z.

Fixpoint multToPlaces_loop (fuel : nat) (mult places : Z) : Z :=
  match fuel with
  | O => places
  | S fuel' =>
      if (1 <? mult)%Z
      then multToPlaces_loop fuel' (GoInt.quot mult 10) (GoInt.add places 1)
      else places
  end.

(** [multToPlaces]: the power of ten as a number of decimal places.  Twenty
    divisions by ten exhaust any 64-bit value. *)
Definition multToPlaces (mult : Z) : Z := multToPlaces_loop 20 mult 0.

(** [zeroBeforeDecimal]: the float with its integer part removed. *)
Definition zeroBeforeDecimal (f : float) : float :=
  let '(f, sign) := if f <? 0 then (f * (-1), -1) else (f, 1) in
  let floor := Floor f in
  (f - floor) * sign.

(** [RoundToNonZeroPlaces]: the rounded float and the number of leading
    decimal places that are zero. *)
Definition RoundToNonZeroPlaces (f : float) (places : Z) : option (float * Z) :=
  if f =? 0 then Some (0, 0%Z)
  else
    let decOnly := zeroBeforeDecimal f in
    if decOnly =? 0 then Some (f, 0%Z)
    else
      match multToNonZero decOnly with
      | None => None
      | Some nzMult =>
          if (places =? 0)%Z then Some (f, multToPlaces nzMult)
          else
            let plMult := placesToMult places in
            let m := of_int (GoInt.mul nzMult plMult) in
            Some (Ceil (f * m) / m, multToPlaces nzMult)
      end.

(** [Round]: the nearest integer, rounding half away from zero. *)
Definition Round (x : float) : float :=
  let t := Trunc x in
  if 0.5 <=? Abs (x - t) then t + Copysign 1 x else t.

Definition MinMax_step (acc : float * float) (v : float) : float * float :=
  let '(min, max) := acc in
  let min := if v <? min then v else min in
  let max := if max <? v then v else max in
  (min, max).

(** [MinMax]: the smallest and the largest of the values. *)
Definition MinMax (values : list float) : float * float :=
  match values with
  | [] => (0, 0)
  | _ => fold_left MinMax_step values (MaxFloat64, -1 * MaxFloat64)
  end.

Definition MinMaxInts_step (acc : Z * Z) (v : Z) : Z * Z :=
  let '(min, max) := acc in
  let min := if (v <? min)%Z then v else min in
  let max := if (max <? v)%Z then v else max in
  (min, max).

(** [MinMaxInts]: the smallest and the largest of the [int] values. *)
Definition MinMaxInts (values : list Z) : Z * Z :=
  match values with
  | [] => (0%Z, 0%Z)
  | _ =>
      fold_left MinMaxInts_step values
        (GoInt.MaxInt32, GoInt.mul (-1) GoInt.MaxInt32)
  end.

(** [DegreesToRadians].  Go's [%] takes the sign of the dividend. *)
Definition DegreesToRadians (degrees : Z) : float :=
  let degrees := if (360 <? degrees)%Z then Z.rem degrees 360 else degrees in
  (of_int degrees / 180) * Pi.

(** [RadiansToDegrees]. *)
Definition RadiansToDegrees (radians : float) : Z :=
  let d := to_int (Round (radians * 180 / Pi)) in
  if (d <? 0)%Z then GoInt.add d 360 else d.

End numbers.

(** ** Results of fallible functions *)

(** The [error] values of package axes, one constructor for each
    [fmt.Errorf] of scale.go, with the arguments it formats. *)
Inductive error : Type :=
| ErrMaxLessThanMin (max min : float)
| ErrGraphHeight (least got : Z)
| ErrNumPoints (got : Z)
| ErrGraphWidth (least got : Z)
| ErrXCoordinate (x min max : Z)
| ErrXValue (v : Z) (min max : float)
| ErrPosition (pos min max : Z)
| ErrYCoordinate (y min max : Z).

(** What a call yields: the value with a nil error, a non-nil error, or
    nothing at all when a loop of package numbers has used up its fuel (the
    properties below show that this does not happen). *)
Inductive result (A : Type) : Type :=
| Ok (a : A)
| Err (e : error)
| OutOfFuel.

Arguments Ok {A} a.
Arguments Err {A} e.
Arguments OutOfFuel {A}.

Definition bind {A B : Type} (r : result A) (k : A -> result B) : result B :=
  match r with
  | Ok a => k a
  | Err e => Err e
  | OutOfFuel => OutOfFuel
  end.

Notation "x <- r ;; k" := (bind r (fun x => k))
  (at level 61, r at next level, right associativity).

(** ** Package axes *)

Module axes.

Import GoFloat.
Local Open Scope float_scope.

(** Modelled from the spec: the type [Value] and its constructor [NewValue]
    (value.go is not among the sources).  A value keeps the raw float, the
    float rounded by [RoundToNonZeroPlaces] and the precision asked for;
    the fields bear the names scale.go reads them by. *)
Record Value : Type := mkValue {
  Value_ : float;
  Rounded : float;
  NonZeroDecimals : Z
}.

Definition NewValue (v : float) (nonZeroDecimals : Z) : result Value :=
  match numbers.RoundToNonZeroPlaces v nonZeroDecimals with
  | Some (r, _) => Ok (mkValue v r nonZeroDecimals)
  | None => OutOfFuel
  end.

(** [positionToY]: positions grow up, coordinates grow down. *)
Definition positionToY (pos height : Z) : result Z :=
  let max := GoInt.sub height 1 in
  if ((pos <? 0) || (max <? pos))%Z then Err (ErrPosition pos 0 max)
  else Ok (GoInt.sub max pos).

(** [yToPosition]: the reverse of [positionToY]. *)
Definition yToPosition (y height : Z) : result Z :=
  let max := GoInt.sub height 1 in
  if ((y <? 0) || (max <? y))%Z then Err (ErrYCoordinate y 0 max)
  else Ok (GoInt.add (GoInt.mul (-1) y) max).

(** The scale of the Y axis. *)
Record YScale : Type := mkYScale {
  Min : Value;
  Max : Value;
  Step : Value;
  GraphHeight : Z;
  brailleHeight : Z
}.

(** The scale of the X axis. *)
Record XScale : Type := mkXScale {
  XMin : Value;
  XMax : Value;
  XStep : Value;
  GraphWidth : Z;
  brailleWidth : Z
}.

Section Scales.

(** The constants [braille.RowMult] and [braille.ColMult] of the canvas,
    whose declaration is not among the sources: the number of pixel rows
    and pixel columns in one cell. *)
Variables RowMult ColMult : Z.

(** [NewYScale]. *)
Definition NewYScale (min max : float) (graphHeight nonZeroDecimals : Z)
  : result YScale :=
  if max <? min then Err (ErrMaxLessThanMin max min)
  else if (graphHeight <? 1)%Z then Err (ErrGraphHeight 1 graphHeight)
  else
    let brailleHeight := GoInt.mul graphHeight RowMult in
    let usablePixels := GoInt.sub brailleHeight 1 in
    let min := if 0 <? min then 0 else min in
    let max := if max <? 0 then 0 else max in
    let diff := max - min in
    step <- NewValue (diff / of_int usablePixels) nonZeroDecimals ;;
    vmin <- NewValue min nonZeroDecimals ;;
    vmax <- NewValue max nonZeroDecimals ;;
    Ok (mkYScale vmin vmax step graphHeight brailleHeight).

(** [YScale.PixelToValue]. *)
Definition PixelToValue (ys : YScale) (y : Z) : result float :=
  pos <- yToPosition y (brailleHeight ys) ;;
  if (pos =? 0)%Z then Ok (Rounded (Min ys))
  else if (pos =? GoInt.sub (brailleHeight ys) 1)%Z then Ok (Rounded (Max ys))
  else
    let v := of_int pos * Rounded (Step ys) in
    let v := if Value_ (Min ys) <? 0
             then v - (-1 * Value_ (Min ys)) else v in
    Ok v.

(** [YScale.ValueToPixel]. *)
Definition ValueToPixel (ys : YScale) (v : float) : result Z :=
  if Rounded (Step ys) =? 0 then Ok 0%Z
  else
    let v := if Value_ (Min ys) <? 0
             then v + (-1 * Value_ (Min ys)) else v in
    let pos := to_int (numbers.Round (v / Rounded (Step ys))) in
    positionToY pos (brailleHeight ys).

(** [YScale.CellLabel]. *)
Definition CellLabel (ys : YScale) (y : Z) : result Value :=
  pos <- yToPosition y (GraphHeight ys) ;;
  pixelY <- positionToY (GoInt.mul pos RowMult) (brailleHeight ys) ;;
  v <- PixelToValue ys pixelY ;;
  NewValue v (NonZeroDecimals (Min ys)).

(** [NewXScale]. *)
Definition NewXScale (numPoints graphWidth nonZeroDecimals : Z)
  : result XScale :=
  if (numPoints <? 0)%Z then Err (ErrNumPoints numPoints)
  else if (graphWidth <? 1)%Z then Err (ErrGraphWidth 1 graphWidth)
  else
    let brailleWidth := GoInt.mul graphWidth ColMult in
    let usablePixels := GoInt.sub brailleWidth 1 in
    let min := 0 in
    let max := of_int (GoInt.sub numPoints 1) in
    let max := if max <? 0 then 0 else max in
    let diff := max - min in
    step <- NewValue (diff / of_int usablePixels) nonZeroDecimals ;;
    vmin <- NewValue min nonZeroDecimals ;;
    vmax <- NewValue max nonZeroDecimals ;;
    Ok (mkXScale vmin vmax step graphWidth brailleWidth).

(** [XScale.PixelToValue]. *)
Definition XPixelToValue (xs : XScale) (x : Z) : result float :=
  if ((x <? 0) || (brailleWidth xs <=? x))%Z
  then Err (ErrXCoordinate x 0 (brailleWidth xs))
  else if (x =? 0)%Z then Ok (Rounded (XMin xs))
  else if (x =? GoInt.sub (brailleWidth xs) 1)%Z then Ok (Rounded (XMax xs))
  else Ok (of_int x * Rounded (XStep xs)).

(** [XScale.ValueToPixel]. *)
Definition XValueToPixel (xs : XScale) (v : Z) : result Z :=
  let fv := of_int v in
  if (fv <? Value_ (XMin xs)) || (Rounded (XMax xs) <? fv)
  then Err (ErrXValue v (Value_ (XMin xs)) (Rounded (XMax xs)))
  else if Rounded (XStep xs) =? 0 then Ok 0%Z
  else Ok (to_int (numbers.Round (fv / Rounded (XStep xs)))).

(** [XScale.ValueToCell]. *)
Definition XValueToCell (xs : XScale) (v : Z) : result Z :=
  p <- XValueToPixel xs v ;;
  Ok (GoInt.quot p ColMult).

(** [XScale.CellLabel]. *)
Definition XCellLabel (xs : XScale) (x : Z) : result Value :=
  v <- XPixelToValue xs (GoInt.mul x ColMult) ;;
  NewValue (numbers.Round v) (NonZeroDecimals (XMin xs)).

End Scales.

End axes.

(** ** Package barchart *)

Module barchart.

(** The errors of [validateValues], one constructor for each [fmt.Errorf],
    with the arguments it formats. *)
Inductive error : Type :=
| ErrMaximum (max : Z)
| ErrValue (i v : Z).

(** The fields of the options that the functions below read (the
    declaration of the options is not among the sources); an [Option] given
    to a call updates them. *)
Record options : Type := mkOptions {
  opt_barWidth : Z;
  opt_barGap : Z;
  opt_labels : list String.string
}.

(** The bar chart: the values of the bars, the maximum value of a bar and
    the options. *)
Record BarChart : Type := mkBarChart {
  values : list Z;
  max : Z;
  opts : options
}.

(** [len] of a slice. *)
Definition len {A : Type} (l : list A) : Z := Z.of_nat (length l).

(** The loop of [validateValues] from the index [i] on. *)
Fixpoint validateValues_from (i : Z) (values : list Z) (max : Z)
  : option error :=
  match values with
  | [] => None
  | v :: rest =>
      if (v <? 0) || (max <? v) then Some (ErrValue i v)
      else validateValues_from (i + 1) rest max
  end.

(** [validateValues]; [None] is the nil error. *)
Definition validateValues (values : list Z) (max : Z) : option error :=
  if max <? 1 then Some (ErrMaximum max)
  else validateValues_from 0 values max.

(** [BarChart.Values]: the chart after the call and the error returned.
    The options given are applied in their order. *)
Definition Values (bc : BarChart) (values : list Z) (max : Z)
  (opts_given : list (options -> options)) : BarChart * option error :=
  match validateValues values max with
  | Some err => (bc, Some err)
  | None =>
      (mkBarChart values max
         (fold_left (fun o opt => opt o) opts_given (opts bc)),
       None)
  end.

(** [BarChart.barWidth], on a canvas whose area is [dx] cells wide. *)
Definition barWidth (bc : BarChart) (dx : Z) : Z :=
  if len (values bc) =? 0 then 0
  else if 1 <=? opt_barWidth (opts bc) then opt_barWidth (opts bc)
  else
    let gaps := GoInt.sub (len (values bc)) 1 in
    let gapW := GoInt.mul gaps (opt_barGap (opts bc)) in
    let rem := GoInt.sub dx gapW in
    GoInt.quot rem (len (values bc)).

(** [BarChart.minSize]: the width and the height of the smallest canvas. *)
Definition minSize (bc : BarChart) : Z * Z :=
  let bars := len (values bc) in
  if bars =? 0 then (1, 1)
  else
    let minHeight :=
      if 0 <? len (opt_labels (opts bc)) then GoInt.add 1 1 else 1 in
    let minBarWidth :=
      if opt_barWidth (opts bc) <? 1 then 1 else opt_barWidth (opts bc) in
    let minWidth :=
      GoInt.add (GoInt.mul bars minBarWidth)
                (GoInt.mul (GoInt.sub bars 1) (opt_barGap (opts bc))) in
    (minWidth, minHeight).

End barchart.

(** ** Vocabulary of the statements *)

(** The degrees [RadiansToDegrees] computes before it normalizes them: the
    rounded value converted to an [int]. *)
Definition rounded_degrees (radians : float) : Z :=
  GoFloat.to_int (numbers.Round (radians * 180 / GoFloat.Pi)%float).

(** A binary64 value that is a zero or a finite number. *)
Definition SF_finite (x : spec_float) : Prop :=
  match x with
  | S754_zero _ | S754_finite _ _ _ => True
  | _ => False
  end.

(** The rational number a finite binary64 value stands for: the mantissa
    times two to the exponent, with the sign. *)
Definition SF2Q (x : spec_float) : Q :=
  match x with
  | S754_finite s m e =>
      match e with
      | Zneg k => Qmake (cond_Zopp s (Zpos m)) (2 ^ k)
      | _ => inject_Z (cond_Zopp s (Zpos m) * 2 ^ e)
      end
  | _ => 0%Q
  end.

Definition float_to_Q (x : float) : Q := SF2Q (Prim2SF x).

(** The integer [z] is the nearest to [q], and of two integers at the same
    distance it is the one farther from zero. *)
Definition nearest_half_away (q : Q) (z : Z) : Prop :=
  (Qabs (inject_Z z - q) <= 1 # 2)%Q /\
  (Qabs (inject_Z z - q) == 1 # 2 -> Qabs q < Qabs (inject_Z z))%Q.

(** The magnitude of the integer nearest to m * 2^e for a negative [e], ties
    away from zero: the integer part, and one more when the fraction is at
    least a half. *)
Definition round_away_mag (m : positive) (e : Z) : Z :=
  let k := - e in
  let n := Zpos m / 2 ^ k in
  let r := Zpos m mod 2 ^ k in
  if 2 ^ k <=? 2 * r then n + 1 else n.

(** The rank of a binary64 value that is not a NaN: an integer that grows
    with the value, the two zeros sharing the rank 0. *)
Definition SF_rank (x : spec_float) : Z :=
  match x with
  | S754_zero _ | S754_nan => 0
  | S754_infinity s => cond_Zopp s (2047 * 2 ^ 53)
  | S754_finite s m e => cond_Zopp s ((e + 1075) * 2 ^ 53 + Zpos m)
  end.

Definition float_rank (x : float) : Z := SF_rank (Prim2SF x).

(** * Properties *)

Import GoFloat.

(** ** Order facts on binary64 values *)

Section FloatOrder.

Local Open Scope float_scope.

Lemma Prim2SF_zero : Prim2SF 0 = S754_zero false.
Proof. reflexivity. Qed.

Lemma not_nan_spec (x : float) : is_nan x = false -> Prim2SF x <> S754_nan.
Proof.
  unfold is_nan. rewrite FloatAxioms.eqb_spec. intros H E. rewrite E in H.
  discriminate.
Qed.

(** A value that is not above zero is at most zero, unless it is a NaN. *)
Lemma not_pos_le_zero (x : float) :
  is_nan x = false -> (0 <? x) = false -> (x <=? 0) = true.
Proof.
  intros Hn. apply not_nan_spec in Hn.
  rewrite FloatAxioms.ltb_spec, FloatAxioms.leb_spec, Prim2SF_zero.
  destruct (Prim2SF x) as [s | s | | s m e]; try congruence;
    destruct s; cbv [SFltb SFleb SFcompare]; congruence.
Qed.

Lemma not_neg_ge_zero (x : float) :
  is_nan x = false -> (x <? 0) = false -> (0 <=? x) = true.
Proof.
  intros Hn. apply not_nan_spec in Hn.
  rewrite FloatAxioms.ltb_spec, FloatAxioms.leb_spec, Prim2SF_zero.
  destruct (Prim2SF x) as [s | s | | s m e]; try congruence;
    destruct s; cbv [SFltb SFleb SFcompare]; congruence.
Qed.

(** Nothing that is not a NaN lies below a negative value without being
    negative itself, nor above a positive one without being positive. *)
Lemma pos_le_pos (x y : float) :
  is_nan y = false -> (0 <? x) = true -> (y <? x) = false -> (y <? 0) = false.
Proof.
  intros Hn. apply not_nan_spec in Hn.
  rewrite !FloatAxioms.ltb_spec, Prim2SF_zero.
  destruct (Prim2SF x) as [s | s | | s m e], (Prim2SF y) as [t | t | | t n f];
    try congruence; try destruct s; try destruct t;
    cbv [SFltb SFcompare]; congruence.
Qed.

Lemma neg_ge_neg (x y : float) :
  is_nan x = false -> (y <? 0) = true -> (y <? x) = false -> (0 <? x) = false.
Proof.
  intros Hn. apply not_nan_spec in Hn.
  rewrite !FloatAxioms.ltb_spec, Prim2SF_zero.
  destruct (Prim2SF x) as [s | s | | s m e], (Prim2SF y) as [t | t | | t n f];
    try congruence; try destruct s; try destruct t;
    cbv [SFltb SFcompare]; congruence.
Qed.

End FloatOrder.

(** ** Integers in range do not wrap *)

Lemma wrap_in_range (z : Z) : GoInt.in_range z -> GoInt.wrap z = z.
Proof.
  unfold GoInt.in_range, GoInt.wrap, GoInt.MinInt64, GoInt.MaxInt64.
  intros H. rewrite Z.mod_small; lia.
Qed.

(** ** MinMaxInts *)

Section MinMaxInts.

Import numbers.

Lemma MinMaxInts_fold (l : list Z) (a b : Z) :
  fold_left MinMaxInts_step l (a, b) = (fold_left Z.min l a, fold_left Z.max l b).
Proof.
  revert a b. induction l as [| v l IH]; intros a b; simpl; [reflexivity |].
  rewrite <- IH. f_equal. f_equal.
  - destruct (Z.ltb_spec v a); lia.
  - destruct (Z.ltb_spec b v); lia.
Qed.

Lemma fold_min_spec (l : list Z) (a : Z) :
  let m := fold_left Z.min l a in
  (m <= a /\ Forall (fun v => m <= v) l) /\ (m = a \/ In m l).
Proof.
  revert a. induction l as [| v l IH]; intros a; simpl.
  - repeat split; auto; lia.
  - destruct (IH (Z.min a v)) as [[Hle Hall] Hin]. repeat split.
    + lia.
    + constructor; [lia | exact Hall].
    + destruct Hin as [Hin | Hin]; [| right; right; exact Hin].
      rewrite Hin.
      destruct (Z.min_spec a v) as [[_ E] | [_ E]]; rewrite E; auto.
Qed.

Lemma fold_max_spec (l : list Z) (b : Z) :
  let m := fold_left Z.max l b in
  (b <= m /\ Forall (fun v => v <= m) l) /\ (m = b \/ In m l).
Proof.
  revert b. induction l as [| v l IH]; intros b; simpl.
  - repeat split; auto; lia.
  - destruct (IH (Z.max b v)) as [[Hle Hall] Hin]. repeat split.
    + lia.
    + constructor; [lia | exact Hall].
    + destruct Hin as [Hin | Hin]; [| right; right; exact Hin].
      rewrite Hin.
      destruct (Z.max_spec b v) as [[_ E] | [_ E]]; rewrite E; auto.
Qed.

(** Between the two sentinels the function is right: on a list that is not
    empty and whose values all lie in [-MaxInt32, MaxInt32], it returns two
    elements of the list that bound every element. *)
Lemma MinMaxInts_within_sentinels (values : list Z) :
  values <> [] ->
  Forall (fun v => - GoInt.MaxInt32 <= v <= GoInt.MaxInt32) values ->
  In (fst (MinMaxInts values)) values /\
  In (snd (MinMaxInts values)) values /\
  Forall (fun v => fst (MinMaxInts values) <= v <= snd (MinMaxInts values)) values.
Proof.
  intros Hne Hall. destruct values as [| v l]; [congruence |].
  unfold MinMaxInts. rewrite MinMaxInts_fold. cbn [fst snd].
  change (GoInt.mul (-1) GoInt.MaxInt32) with (- GoInt.MaxInt32).
  destruct (fold_min_spec (v :: l) GoInt.MaxInt32) as [[Hle1 Hall1] Hin1].
  destruct (fold_max_spec (v :: l) (- GoInt.MaxInt32)) as [[Hle2 Hall2] Hin2].
  set (mn := fold_left Z.min (v :: l) GoInt.MaxInt32) in *.
  set (mx := fold_left Z.max (v :: l) (- GoInt.MaxInt32)) in *.
  pose proof (Forall_inv Hall) as Hv.
  pose proof (Forall_inv Hall1) as Hv1. pose proof (Forall_inv Hall2) as Hv2.
  cbv beta in Hv, Hv1, Hv2.
  repeat split.
  - destruct Hin1 as [E | Hin]; [| exact Hin]. left. lia.
  - destruct Hin2 as [E | Hin]; [| exact Hin]. left. lia.
  - rewrite Forall_forall in *. intros x Hx.
    specialize (Hall1 x Hx). specialize (Hall2 x Hx). cbv beta in *. lia.
Qed.

End MinMaxInts.

(** ** Facts on the specification of binary64 arithmetic

    The primitive operations are specified by the functions of [SpecFloat]
    on a sign, a mantissa and an exponent.  What follows evaluates these
    functions on symbolic arguments in the cases where no bit is lost. *)

(** The number of binary digits of a mantissa. *)
Lemma digits2_pos_size (m : positive) : digits2_pos m = Pos.size m.
Proof. induction m; simpl; congruence. Qed.

Lemma digits2_pos_log2 (m : positive) :
  Zpos (digits2_pos m) = Z.log2 (Zpos m) + 1.
Proof.
  rewrite digits2_pos_size. destruct m; simpl; try reflexivity; lia.
Qed.

Lemma digits2_pos_bounds (m : positive) :
  2 ^ (Zpos (digits2_pos m) - 1) <= Zpos m < 2 ^ Zpos (digits2_pos m).
Proof.
  rewrite digits2_pos_log2.
  pose proof (Z.log2_spec (Zpos m) eq_refl) as H.
  replace (Z.log2 (Z.pos m) + 1 - 1) with (Z.log2 (Z.pos m)) by lia.
  replace (Z.log2 (Z.pos m) + 1) with (Z.succ (Z.log2 (Z.pos m))) by lia.
  exact H.
Qed.

(** The bounds determine the number of digits. *)
Lemma digits2_pos_unique (m : positive) (d : Z) :
  2 ^ (d - 1) <= Zpos m < 2 ^ d -> Zpos (digits2_pos m) = d.
Proof.
  intros H. rewrite digits2_pos_log2.
  assert (Hd : 0 < d).
  { destruct (Z.ltb_spec 0 d) as [| Hle]; [assumption |].
    assert (2 ^ d <= 1).
    { destruct (Z.eq_dec d 0); [subst; simpl; lia |].
      rewrite Z.pow_neg_r; lia. }
    lia. }
  rewrite (Z.log2_unique (Zpos m) (d - 1));
    lia || (replace (Z.succ (d - 1)) with d by lia; lia).
Qed.

(** Appending zero bits multiplies by a power of two. *)
Lemma iter_xO (m d : positive) : Zpos (Pos.iter xO m d) = Zpos m * 2 ^ Zpos d.
Proof.
  induction d as [| d IH] using Pos.peano_ind.
  - simpl. lia.
  - rewrite Pos.iter_succ, Pos2Z.inj_succ, Z.pow_succ_r by lia.
    rewrite Pos2Z.inj_xO, IH. lia.
Qed.

Lemma digits2_pos_iter_xO (m d : positive) :
  digits2_pos (Pos.iter xO m d) = (digits2_pos m + d)%positive.
Proof.
  induction d as [| d IH] using Pos.peano_ind.
  - simpl. lia.
  - rewrite Pos.iter_succ. simpl. rewrite IH. lia.
Qed.

(** Shifting out bits that are all zero leaves no round or sticky bit. *)
Lemma shr_exact (p q : positive) :
  SpecFloat.iter_pos shr_1 p
    (Build_shr_record (Zpos (Pos.iter xO q p)) false false)
  = Build_shr_record (Zpos q) false false.
Proof.
  revert q. induction p as [p IH | p IH |]; intros q; simpl.
  - rewrite IH, IH. reflexivity.
  - rewrite IH, IH. reflexivity.
  - reflexivity.
Qed.

Lemma fexp_eq (d : Z) : fexp prec emax d = Z.max (d - 53) (-1074).
Proof. reflexivity. Qed.

(** A canonical mantissa and exponent are left as they are. *)
Lemma binary_round_aux_canonical (s : bool) (m : positive) (e : Z) :
  canonical_mantissa prec emax m e = true -> e <= 971 ->
  binary_round_aux prec emax s (Zpos m) e loc_Exact = S754_finite s m e.
Proof.
  unfold canonical_mantissa. intros Hc He. apply Z.eqb_eq in Hc.
  cbv [binary_round_aux shr_fexp Zdigits2 shr_record_of_loc].
  rewrite Hc, Z.sub_diag.
  cbv [shr shr_m loc_of_shr_record round_nearest_even Zdigits2
       shr_record_of_loc].
  rewrite Hc, Z.sub_diag.
  replace (e <=? emax - prec) with true; [reflexivity |].
  symmetry. apply Z.leb_le. exact He.
Qed.

(** A mantissa with room to spare is shifted left into canonical form. *)
Lemma binary_round_shl (s : bool) (m d : positive) (e : Z) :
  fexp prec emax (Zpos (digits2_pos m) + e) = e - Zpos d -> e - Zpos d <= 971 ->
  binary_round prec emax s m e = S754_finite s (Pos.iter xO m d) (e - Zpos d).
Proof.
  intros Hf He. unfold binary_round. rewrite Hf.
  unfold shl_align. replace (e - Zpos d - e) with (Zneg d) by lia.
  apply binary_round_aux_canonical; [| exact He].
  unfold canonical_mantissa. apply Z.eqb_eq.
  rewrite digits2_pos_iter_xO. rewrite <- Hf at 2. f_equal. lia.
Qed.

(** A mantissa whose low bits are zero is shifted right without loss. *)
Lemma binary_round_shr (s : bool) (q h : positive) (e : Z) :
  fexp prec emax (Zpos (digits2_pos (Pos.iter xO q h)) + e) = e + Zpos h ->
  e + Zpos h <= 971 ->
  binary_round prec emax s (Pos.iter xO q h) e = S754_finite s q (e + Zpos h).
Proof.
  intros Hf He. unfold binary_round. rewrite Hf.
  unfold shl_align. replace (e + Zpos h - e) with (Zpos h) by lia.
  cbv [binary_round_aux shr_fexp Zdigits2 shr_record_of_loc].
  rewrite Hf. replace (e + Zpos h - e) with (Zpos h) by lia.
  cbv [shr]. rewrite shr_exact.
  cbv [shr_m loc_of_shr_record round_nearest_even Zdigits2 shr_record_of_loc].
  rewrite digits2_pos_iter_xO in Hf.
  replace (Zpos (digits2_pos q) + (e + Zpos h))
    with (Zpos (digits2_pos q + h) + e) by lia.
  rewrite Hf, Z.sub_diag.
  replace (e + Zpos h <=? emax - prec) with true; [reflexivity |].
  symmetry. apply Z.leb_le. exact He.
Qed.

Lemma binary_round_canonical (s : bool) (m : positive) (e : Z) :
  canonical_mantissa prec emax m e = true -> e <= 971 ->
  binary_round prec emax s m e = S754_finite s m e.
Proof.
  intros Hc He. unfold binary_round.
  pose proof Hc as Hc'. unfold canonical_mantissa in Hc'. apply Z.eqb_eq in Hc'.
  rewrite Hc'. unfold shl_align. rewrite Z.sub_diag.
  apply binary_round_aux_canonical; assumption.
Qed.

Lemma binary_normalize_signed (s s0 : bool) (z : positive) (e : Z) :
  binary_normalize prec emax (cond_Zopp s (Zpos z)) e s0
  = binary_round prec emax s z e.
Proof. destruct s; reflexivity. Qed.

Lemma pos_of_iter_xO (M m d : positive) :
  Zpos M = Zpos m * 2 ^ Zpos d -> M = Pos.iter xO m d.
Proof. intros H. apply Pos2Z.inj. rewrite iter_xO. exact H. Qed.

(** Rounding a value that a 53-bit mantissa [M] holds exactly at the exponent
    [e'] gives that mantissa and exponent. *)
Lemma binary_round_exact (s : bool) (z M : positive) (e e' : Z) :
  2 ^ 52 <= Zpos M < 2 ^ 53 ->
  -1074 <= e' <= 971 ->
  (e' <= e /\ Zpos M = Zpos z * 2 ^ (e - e')) \/
  (e < e' /\ Zpos z = Zpos M * 2 ^ (e' - e)) ->
  binary_round prec emax s z e = S754_finite s M e'.
Proof.
  intros HM He' Hv.
  assert (HdM : Zpos (digits2_pos M) = 53)
    by (apply digits2_pos_unique; exact HM).
  destruct Hv as [[Hle Hv] | [Hlt Hv]].
  - destruct (Z.eq_dec e' e) as [-> | Hne].
    + rewrite Z.sub_diag, Z.pow_0_r, Z.mul_1_r in Hv. injection Hv as ->.
      apply binary_round_canonical; [| lia].
      unfold canonical_mantissa. apply Z.eqb_eq. rewrite fexp_eq, HdM. lia.
    + assert (Hd : 0 < e - e') by lia.
      destruct (e - e') as [| d | d] eqn:Ed; try lia.
      apply pos_of_iter_xO in Hv. subst M.
      replace e' with (e - Zpos d) in * by lia.
      apply binary_round_shl; [| lia].
      rewrite digits2_pos_iter_xO in HdM. rewrite fexp_eq. lia.
  - assert (Hd : 0 < e' - e) by lia.
    destruct (e' - e) as [| h | h] eqn:Eh; try lia.
    apply pos_of_iter_xO in Hv. subst z.
    replace e' with (e + Zpos h) in * by lia.
    apply binary_round_shr; [| lia].
    rewrite digits2_pos_iter_xO. rewrite fexp_eq. lia.
Qed.

(** The mantissa and the exponent of a float are canonical. *)
Lemma Prim2SF_finite_valid (x : float) (s : bool) (m : positive) (e : Z) :
  Prim2SF x = S754_finite s m e ->
  Z.max (Zpos (digits2_pos m) + e - 53) (-1074) = e /\ e <= 971.
Proof.
  intros H. pose proof (Prim2SF_valid x) as V. rewrite H in V.
  unfold SpecFloat.valid_binary, bounded, canonical_mantissa in V.
  apply andb_true_iff in V. destruct V as [V1 V2].
  apply Z.eqb_eq in V1. apply Z.leb_le in V2. rewrite fexp_eq in V1.
  split; [exact V1 | exact V2].
Qed.

Lemma cond_Zopp_0 (s : bool) : cond_Zopp s 0 = 0.
Proof. destruct s; reflexivity. Qed.

Lemma cond_Zopp_add (s : bool) (a b : Z) :
  cond_Zopp s a + cond_Zopp s b = cond_Zopp s (a + b).
Proof. destruct s; simpl; lia. Qed.

Lemma cond_Zopp_sub (s : bool) (a b : Z) :
  cond_Zopp s a - cond_Zopp s b = cond_Zopp s (a - b).
Proof. destruct s; simpl; lia. Qed.

Lemma shl_align_value (m : positive) (e e' : Z) :
  e' <= e -> Zpos (fst (shl_align m e e')) = Zpos m * 2 ^ (e - e').
Proof.
  intros H. unfold shl_align. destruct (e' - e) as [| d | d] eqn:E; try lia.
  - replace (e - e') with 0 by lia. cbn [fst]. rewrite Z.pow_0_r. lia.
  - cbn [fst]. rewrite iter_xO. f_equal. f_equal. lia.
Qed.

(** The canonical mantissa and exponent of a positive integer below 2^53. *)
Lemma canon_exists (z : Z) :
  0 < z < 2 ^ 53 ->
  exists (M : positive) (e' : Z),
    2 ^ 52 <= Zpos M < 2 ^ 53 /\ -52 <= e' <= 0 /\ Zpos M = z * 2 ^ (- e') /\
    2 ^ (52 + e') <= z < 2 ^ (53 + e').
Proof.
  intros Hz. pose proof (Z.log2_spec z (proj1 Hz)) as L.
  pose proof (Z.log2_nonneg z) as L0.
  assert (L1 : Z.log2 z < 53).
  { apply Z.log2_lt_pow2; lia. }
  set (d := Z.log2 z) in *.
  assert (P : 0 < 2 ^ (52 - d)) by (apply Z.pow_pos_nonneg; lia).
  assert (E1 : 2 ^ d * 2 ^ (52 - d) = 2 ^ 52)
    by (rewrite <- Z.pow_add_r by lia; f_equal; lia).
  assert (E2 : 2 ^ Z.succ d * 2 ^ (52 - d) = 2 ^ 53)
    by (rewrite <- Z.pow_add_r by lia; f_equal; lia).
  exists (Z.to_pos (z * 2 ^ (52 - d))), (d - 52).
  rewrite Z2Pos.id by nia.
  replace (- (d - 52)) with (52 - d) by lia.
  replace (52 + (d - 52)) with d by lia.
  replace (53 + (d - 52)) with (Z.succ d) by lia.
  repeat split; try lia; nia.
Qed.

Lemma binary_normalize_exact (s s0 : bool) (z : Z) (M : positive) (e e' : Z) :
  0 < z ->
  2 ^ 52 <= Zpos M < 2 ^ 53 ->
  -1074 <= e' <= 971 ->
  (e' <= e /\ Zpos M = z * 2 ^ (e - e')) \/
  (e < e' /\ z = Zpos M * 2 ^ (e' - e)) ->
  binary_normalize prec emax (cond_Zopp s z) e s0 = S754_finite s M e'.
Proof.
  intros Hz HM He' Hv. destruct z as [| zp |]; try lia.
  rewrite binary_normalize_signed. apply binary_round_exact; assumption.
Qed.

(** The value z * 2^j at the exponent e - j is the value z at the exponent
    e. *)
Lemma binary_normalize_scaled (s s0 : bool) (z : Z) (M : positive)
  (e' e j : Z) :
  0 < z -> 0 <= j ->
  2 ^ 52 <= Zpos M < 2 ^ 53 -> -52 <= e' <= 0 -> Zpos M = z * 2 ^ (- e') ->
  -1074 <= e + e' <= 971 ->
  binary_normalize prec emax (cond_Zopp s (z * 2 ^ j)) (e - j) s0
  = S754_finite s M (e + e').
Proof.
  intros Hz Hj HM He' EM Hr.
  assert (Pj : 0 < 2 ^ j) by (apply Z.pow_pos_nonneg; lia).
  apply binary_normalize_exact; try assumption; [nia |].
  destruct (Z.le_gt_cases (e + e') (e - j)) as [Hle | Hgt].
  - left. split; [exact Hle |]. rewrite EM.
    rewrite <- Z.mul_assoc, <- Z.pow_add_r by lia. f_equal. f_equal. lia.
  - right. split; [exact Hgt |]. rewrite EM.
    rewrite <- Z.mul_assoc, <- Z.pow_add_r by lia. f_equal. f_equal. lia.
Qed.

Lemma binary_normalize_int (s s0 : bool) (z : Z) (M : positive) (e' e : Z) :
  0 < z ->
  2 ^ 52 <= Zpos M < 2 ^ 53 -> -52 <= e' <= 0 -> Zpos M = z * 2 ^ (- e') ->
  -1074 <= e + e' <= 971 ->
  binary_normalize prec emax (cond_Zopp s z) e s0 = S754_finite s M (e + e').
Proof.
  intros Hz HM He' EM Hr.
  pose proof (binary_normalize_scaled s s0 z M e' e 0 Hz (Z.le_refl 0)
                HM He' EM Hr) as H.
  rewrite Z.pow_0_r, Z.mul_1_r, Z.sub_0_r in H. exact H.
Qed.

(** ** Trunc and Round on finite values *)

Import numbers.

Lemma get_sign_finite (x : float) (s : bool) (m : positive) (e : Z) :
  Prim2SF x = S754_finite s m e -> get_sign x = s.
Proof.
  intros H. unfold get_sign, is_zero.
  rewrite FloatAxioms.eqb_spec, H. cbv [SFeqb SFcompare].
  change (Prim2SF zero) with (S754_zero false). cbv iota.
  replace (match (if s then Lt else Gt) with Eq => true | _ => false end)
    with false by (destruct s; reflexivity).
  rewrite FloatAxioms.ltb_spec, H.
  change (Prim2SF zero) with (S754_zero false).
  destruct s; reflexivity.
Qed.

(** The test of [Round] on the specification side: half against the
    magnitude of the fraction. *)
Lemma Round_cond (x : float) :
  (0.5 <=? Abs (x - Trunc x))%float =
  SFleb (S754_finite false 4503599627370496 (-53))
        (SFabs (SFsub prec emax (Prim2SF x) (Prim2SF (Trunc x)))).
Proof.
  unfold Abs. rewrite FloatAxioms.leb_spec, abs_spec, sub_spec. reflexivity.
Qed.

Lemma Copysign_one (x : float) (s : bool) (m : positive) (e : Z) :
  Prim2SF x = S754_finite s m e ->
  Prim2SF (Copysign 1 x) = S754_finite s 4503599627370496 (-52).
Proof.
  intros H. unfold Copysign. rewrite (get_sign_finite x s m e H).
  destruct s; reflexivity.
Qed.

(** A finite value with a negative exponent: its mantissa splits into the
    integer part [n] and the fraction [r] over 2^k. *)
Section TruncFinite.

Variables (x : float) (s : bool) (m : positive) (e : Z).
Hypothesis Hx : Prim2SF x = S754_finite s m e.
Hypothesis He : e < 0.

Let k := - e.
Let n := Zpos m / 2 ^ k.
Let r := Zpos m mod 2 ^ k.

Lemma trunc_decomp :
  Zpos m = n * 2 ^ k + r /\ 0 <= r < 2 ^ k /\ 0 <= n /\ 0 < 2 ^ k.
Proof.
  assert (P : 0 < 2 ^ k) by (apply Z.pow_pos_nonneg; unfold k; lia).
  unfold n, r. pose proof (Z.div_mod (Zpos m) (2 ^ k)) as D.
  pose proof (Z.mod_pos_bound (Zpos m) (2 ^ k) P).
  assert (0 <= Zpos m / 2 ^ k) by (apply Z.div_pos; lia).
  lia.
Qed.

Lemma Trunc_unfold :
  Trunc x = SF2Prim (binary_normalize prec emax (cond_Zopp s n) 0 s).
Proof.
  unfold Trunc. rewrite Hx. destruct (Z.ltb_spec e 0); [| lia].
  unfold n, k. rewrite Z.shiftr_div_pow2 by lia. reflexivity.
Qed.

(** A value with a nonzero integer part is a normal number with an exponent
    above -53. *)
Lemma normal_of_int_part :
  0 < n -> 2 ^ 52 <= Zpos m < 2 ^ 53 /\ 1 <= k <= 52.
Proof.
  intros Hn. destruct trunc_decomp as (D & Hr & _ & P).
  destruct (Prim2SF_finite_valid x s m e Hx) as [V _].
  pose proof (digits2_pos_bounds m) as B.
  assert (Hmk : 2 ^ k <= Zpos m) by nia.
  assert (Hk : 1 <= k) by (unfold k; lia).
  assert (Hd : k < Zpos (digits2_pos m)).
  { destruct (Z.ltb_spec k (Zpos (digits2_pos m))); [assumption |].
    assert (2 ^ Zpos (digits2_pos m) <= 2 ^ k) by (apply Z.pow_le_mono_r; lia). lia. }
  assert (Hdm : Zpos (digits2_pos m) = 53) by (unfold k in *; lia).
  rewrite Hdm in B. change (53 - 1) with 52 in B. split; [exact B |]. lia.
Qed.

Lemma Trunc_SF_zero :
  n = 0 -> Prim2SF (Trunc x) = S754_zero s.
Proof.
  intros Hn. rewrite Trunc_unfold, Hn. destruct s; reflexivity.
Qed.

Lemma int_part_bounds :
  0 < n -> 2 ^ 52 <= n * 2 ^ k < 2 ^ 53.
Proof.
  intros Hn. destruct trunc_decomp as (D & Hr & _ & P).
  destruct (normal_of_int_part Hn) as [Hm Hk].
  assert (2 ^ (52 - k) <= n).
  { unfold n. apply Z.div_le_lower_bound; [lia |].
    rewrite <- Z.pow_add_r by lia. replace (k + (52 - k)) with 52 by lia. lia. }
  replace (2 ^ 52) with (2 ^ (52 - k) * 2 ^ k)
    by (rewrite <- Z.pow_add_r by lia; f_equal; lia).
  nia.
Qed.

Lemma int_part_SF :
  0 < n ->
  binary_normalize prec emax (cond_Zopp s n) 0 s
  = S754_finite s (Z.to_pos (n * 2 ^ k)) e.
Proof.
  intros Hn. pose proof (int_part_bounds Hn) as B.
  destruct (normal_of_int_part Hn) as [Hm Hk].
  destruct n as [| np |] eqn:En; try lia.
  rewrite binary_normalize_signed.
  apply binary_round_exact.
  - rewrite Z2Pos.id by lia. lia.
  - unfold k in *. lia.
  - left. split; [lia |]. rewrite Z2Pos.id by lia. unfold k.
    replace (0 - e) with (- e) by lia. reflexivity.
Qed.

Lemma Trunc_SF_pos :
  0 < n -> Prim2SF (Trunc x) = S754_finite s (Z.to_pos (n * 2 ^ k)) e.
Proof.
  intros Hn. pose proof (int_part_bounds Hn) as B.
  destruct (normal_of_int_part Hn) as [Hm Hk].
  rewrite Trunc_unfold, (int_part_SF Hn). apply Prim2SF_SF2Prim.
  unfold SpecFloat.valid_binary, bounded, canonical_mantissa.
  apply andb_true_iff. split.
  - apply Z.eqb_eq. rewrite fexp_eq.
    rewrite (digits2_pos_unique (Z.to_pos (n * 2 ^ k)) 53).
    + unfold k in *. lia.
    + rewrite Z2Pos.id by lia. change (53 - 1) with 52. lia.
  - apply Z.leb_le. change (emax - prec) with 971. lia.
Qed.


Lemma shl_align_same (p : positive) (a : Z) : shl_align p a a = (p, a).
Proof. unfold shl_align. rewrite Z.sub_diag. reflexivity. Qed.

Lemma mag_unfold :
  round_away_mag m e = if 2 ^ k <=? 2 * r then n + 1 else n.
Proof. reflexivity. Qed.

Lemma Round_SF_small :
  n = 0 ->
  Prim2SF (Round x)
  = binary_normalize prec emax (cond_Zopp s (round_away_mag m e)) 0 s.
Proof.
  intros Hn. destruct trunc_decomp as (D & Hr & _ & P).
  destruct (Prim2SF_finite_valid x s m e Hx) as [V Ve].
  pose proof (digits2_pos_bounds m) as B.
  rewrite Hn in D. rewrite Z.mul_0_l, Z.add_0_l in D.
  pose proof (Trunc_SF_zero Hn) as HT.
  pose proof (Copysign_one x s m e Hx) as HC.
  unfold Round. rewrite Round_cond, Hx, HT.
  cbv [SFsub SFabs SFleb SFcompare].
  change (Pos.compare_cont Eq 4503599627370496 m)
    with (Z.compare (2 ^ 52) (Zpos m)).
  rewrite mag_unfold, Hn.
  assert (Ek : k = - e) by reflexivity. clearbody n r k.
  assert (Hdk : Zpos (digits2_pos m) - 1 < k).
  { apply (Z.pow_lt_mono_r_iff 2); lia. }
  destruct (Z.compare_spec (-53) e) as [E | L | G].
  - assert (Hk : k = 53) by lia.
    assert (Hm : 2 ^ 52 <= Zpos m).
    { replace (Zpos (digits2_pos m)) with 53 in B by lia. exact (proj1 B). }
    destruct (Z.compare_spec (2 ^ 52) (Zpos m)) as [E2 | L2 | G2]; try lia.
    all: rewrite add_spec, HT, HC.
    all: cbv [SF64add SFadd].
    all: rewrite Hk; destruct (Z.leb_spec (2 ^ 53) (2 * r)); try lia.
    all: destruct s; reflexivity.
  - lia.
  - rewrite HT.
    assert (H54 : 2 ^ 54 <= 2 ^ k) by (apply Z.pow_le_mono_r; lia).
    assert (H53 : 2 ^ Zpos (digits2_pos m) <= 2 ^ 53)
      by (apply Z.pow_le_mono_r; lia).
    destruct (Z.leb_spec (2 ^ k) (2 * r)); [lia |].
    destruct s; reflexivity.
Qed.

Lemma Round_SF_large :
  0 < n ->
  Prim2SF (Round x)
  = binary_normalize prec emax (cond_Zopp s (round_away_mag m e)) 0 s.
Proof.
  intros Hn. destruct trunc_decomp as (D & Hr & _ & P).
  destruct (normal_of_int_part Hn) as [Hm Hk].
  pose proof (int_part_bounds Hn) as HM.
  pose proof (Trunc_SF_pos Hn) as HT.
  pose proof (int_part_SF Hn) as HI.
  pose proof (Copysign_one x s m e Hx) as HC.
  unfold Round. rewrite Round_cond, Hx, HT.
  cbv [SFsub]. rewrite Z.min_id, !shl_align_same. cbn [fst].
  rewrite cond_Zopp_sub, Z2Pos.id by lia.
  replace (Zpos m - n * 2 ^ k) with r by lia.
  rewrite mag_unfold.
  assert (Ek : k = - e) by reflexivity. clearbody n r k.
  destruct (Z.eq_dec r 0) as [Hr0 | Hr0].
  - rewrite Hr0, cond_Zopp_0. cbv [binary_normalize SFabs SFleb SFcompare].
    rewrite HT. destruct (Z.leb_spec (2 ^ k) (2 * 0)); [lia |]. symmetry. exact HI.
  - assert (H52 : 2 ^ k <= 2 ^ 52) by (apply Z.pow_le_mono_r; lia).
    destruct (canon_exists r) as (Mr & er & HMr & Her & EMr & Br); [lia |].
    assert (Hlt : 52 + er < k) by (apply (Z.pow_lt_mono_r_iff 2); lia).
    rewrite (binary_normalize_int s false r Mr er e) by (try assumption; lia).
    cbv [SFabs SFleb SFcompare].
    change (Pos.compare_cont Eq 4503599627370496 Mr)
      with (Z.compare (2 ^ 52) (Zpos Mr)).
    destruct (Z.compare_spec (-53) (e + er)) as [E | L | G]; [| lia |].
    + assert (Hup : 2 ^ k <= 2 * r).
      { replace (52 + er) with (k - 1) in Br by lia.
        replace (2 ^ k) with (2 * 2 ^ (k - 1)); [lia |].
        rewrite <- Z.pow_succ_r by lia. f_equal. lia. }
      destruct (Z.compare_spec (2 ^ 52) (Zpos Mr)) as [E2 | L2 | G2]; try lia.
      all: destruct (Z.leb_spec (2 ^ k) (2 * r)); [| lia].
      all: rewrite add_spec, HT, HC; cbv [SF64add SFadd].
      all: rewrite Z.min_r by lia.
      all: rewrite !shl_align_value by lia.
      all: rewrite cond_Zopp_add, Z2Pos.id by lia.
      all: replace (n * 2 ^ k * 2 ^ (e - -52) + 4503599627370496 * 2 ^ (-52 - -52))
             with ((n + 1) * 2 ^ 52)
        by (rewrite <- Z.mul_assoc, <- Z.pow_add_r by lia;
            replace (k + (e - -52)) with 52 by lia;
            replace (-52 - -52) with 0 by lia; lia).
      all: assert (Hn1 : 0 < n + 1 < 2 ^ 53) by nia.
      all: destruct (canon_exists (n + 1) Hn1) as (M1 & e1 & HM1 & He1 & EM1 & _).
      all: rewrite (binary_normalize_int s s (n + 1) M1 e1 0) by (try assumption; lia).
      all: change (-52) with (0 - 52) at 1.
      all: apply binary_normalize_scaled; try assumption; lia.
    + assert (Hdown : 2 * r < 2 ^ k).
      { assert (2 ^ (53 + er) <= 2 ^ (k - 1)) by (apply Z.pow_le_mono_r; lia).
        replace (2 ^ k) with (2 * 2 ^ (k - 1)); [lia |].
        rewrite <- Z.pow_succ_r by lia. f_equal. lia. }
      destruct (Z.leb_spec (2 ^ k) (2 * r)); [lia |].
      rewrite HT. symmetry. exact HI.
Qed.

(** The float that [Round] returns for a finite value with a fraction is the
    float of the integer nearest to it, ties away from zero, with the sign of
    the argument. *)
Lemma Round_SF :
  Prim2SF (Round x)
  = binary_normalize prec emax (cond_Zopp s (round_away_mag m e)) 0 s.
Proof.
  destruct trunc_decomp as (_ & _ & Hn & _).
  destruct (Z.eq_dec n 0) as [Hn0 | Hn0].
  - apply Round_SF_small. exact Hn0.
  - apply Round_SF_large. lia.
Qed.

End TruncFinite.

Lemma nearest_half_away_int (z : Z) : nearest_half_away (inject_Z z) z.
Proof.
  unfold nearest_half_away, Qle, Qlt, Qeq, Qabs, Qminus, Qplus, Qopp, inject_Z.
  cbn [Qnum Qden]. split; [lia |]. 
  replace (Z.abs (z * 1 + - z * 1)) with 0 by lia. lia.
Qed.

Lemma nearest_half_away_mag (s : bool) (m k : positive) :
  nearest_half_away (Qmake (cond_Zopp s (Zpos m)) (2 ^ k))
                    (cond_Zopp s (round_away_mag m (Zneg k))).
Proof.
  destruct (trunc_decomp m (Zneg k) eq_refl) as (D & Hr & Hn & P).
  unfold round_away_mag.
  change (- Zneg k) with (Zpos k) in *.
  set (n := Zpos m / 2 ^ Zpos k) in *. set (r := Zpos m mod 2 ^ Zpos k) in *.
  clearbody n r.
  unfold nearest_half_away, Qle, Qlt, Qeq, Qabs, Qminus, Qplus, Qopp, inject_Z.
  cbn [Qnum Qden]. rewrite !Pos2Z.inj_mul, Pos2Z.inj_pow.
  change (Zpos 2) with 2. change (Zpos 1) with 1.
  set (d := 2 ^ Zpos k) in *. clearbody d.
  destruct (Z.leb_spec d (2 * r)); destruct s; cbn [cond_Zopp]; split; try nia.
Qed.

Lemma is_finite_SF (x : float) : is_finite x = true <-> SF_finite (Prim2SF x).
Proof.
  unfold is_finite, is_nan, is_infinity.
  rewrite !FloatAxioms.eqb_spec, abs_spec.
  change (Prim2SF infinity) with (S754_infinity false).
  destruct (Prim2SF x) as [s | s | | s m e]; cbv [SFabs SFeqb SFcompare SF_finite].
  all: try rewrite Z.compare_refl, Pos.compare_cont_refl.
  all: try destruct s; simpl; intuition congruence.
Qed.

(** [Round] returns a zero or a value without a fraction as it is. *)
Lemma Round_SF_integral (x : float) :
  match Prim2SF x with
  | S754_zero _ => True
  | S754_finite _ _ e => 0 <= e
  | _ => False
  end ->
  Round x = x.
Proof.
  intros H.
  assert (HT : Trunc x = x).
  { unfold Trunc. destruct (Prim2SF x) as [s | s | | s m e]; try reflexivity.
    destruct (Z.ltb_spec e 0); [lia | reflexivity]. }
  unfold Round. rewrite Round_cond, HT.
  destruct (Prim2SF x) as [s | s | | s m e]; try contradiction.
  - destruct s; reflexivity.
  - cbv [SFsub]. rewrite cond_Zopp_sub, Z.sub_diag, cond_Zopp_0. reflexivity.
Qed.

Lemma round_away_mag_bounds (x : float) (s : bool) (m : positive) (e : Z) :
  Prim2SF x = S754_finite s m e -> e < 0 ->
  0 <= round_away_mag m e < 2 ^ 53.
Proof.
  intros Hx He. destruct (trunc_decomp m e He) as (D & Hr & Hn & P).
  destruct (Prim2SF_finite_valid x s m e Hx) as [V Ve].
  pose proof (digits2_pos_bounds m) as B.
  assert (H53 : 2 ^ Zpos (digits2_pos m) <= 2 ^ 53)
    by (apply Z.pow_le_mono_r; lia).
  assert (H2 : 2 ^ 1 <= 2 ^ (- e)) by (apply Z.pow_le_mono_r; lia).
  change (2 ^ 1) with 2 in H2.
  unfold round_away_mag.
  set (n := Zpos m / 2 ^ (- e)) in *. set (r := Zpos m mod 2 ^ (- e)) in *.
  clearbody n r. set (d := 2 ^ (- e)) in *. clearbody d.
  set (t := 2 ^ Zpos (digits2_pos m)) in *. clearbody t.
  destruct (Z.leb_spec d (2 * r)); nia.
Qed.

(** The value of the float of an integer below 2^53. *)
Lemma SF2Q_binary_normalize_int (s : bool) (z : Z) :
  0 <= z < 2 ^ 53 ->
  SF_finite (binary_normalize prec emax (cond_Zopp s z) 0 s) /\
  (SF2Q (binary_normalize prec emax (cond_Zopp s z) 0 s)
   == inject_Z (cond_Zopp s z))%Q.
Proof.
  intros Hz. destruct (Z.eq_dec z 0) as [-> | Hnz].
  - rewrite cond_Zopp_0. simpl. split; [exact I | reflexivity].
  - destruct (canon_exists z) as (M & e' & HM & He' & EM & _); [lia |].
    rewrite (binary_normalize_int s s z M e' 0) by (try assumption; lia).
    split; [exact I |]. rewrite Z.add_0_l. unfold SF2Q.
    destruct e' as [| p | p]; try lia.
    + rewrite EM. simpl (- 0). rewrite Z.pow_0_r, !Z.mul_1_r.
      destruct s; simpl; rewrite ?Z.mul_1_r; reflexivity.
    + unfold Qeq, inject_Z. cbn [Qnum Qden]. rewrite Pos2Z.inj_pow.
      change (- Zneg p) with (Zpos p) in EM. change (Zpos 2) with 2.
      destruct s; cbn [cond_Zopp]; lia.
Qed.

(** [Round] on a finite value: the result is finite, an integer, and the
    nearest one to the argument, the farther from zero of two at the same
    distance. *)
Lemma Round_nearest (x : float) :
  is_finite x = true ->
  exists z : Z,
    is_finite (Round x) = true /\
    (float_to_Q (Round x) == inject_Z z)%Q /\
    nearest_half_away (float_to_Q x) z.
Proof.
  intros Hf. pose proof Hf as Hf'. apply is_finite_SF in Hf'.
  unfold float_to_Q.
  destruct (Prim2SF x) as [s | s | | s m e] eqn:Hx; try contradiction.
  - exists 0. rewrite (Round_SF_integral x) by (rewrite Hx; exact I).
    rewrite Hx. split; [exact Hf |]. split; [reflexivity |].
    exact (nearest_half_away_int 0).
  - destruct (Z.ltb_spec e 0) as [He | He].
    + exists (cond_Zopp s (round_away_mag m e)).
      pose proof (round_away_mag_bounds x s m e Hx He) as Hb.
      destruct (SF2Q_binary_normalize_int s _ Hb) as [F V].
      rewrite <- (Round_SF x s m e Hx He) in F, V.
      split; [apply is_finite_SF; exact F |]. split; [exact V |].
      destruct e as [| p | k]; try lia. apply nearest_half_away_mag.
    + exists (cond_Zopp s (Zpos m) * 2 ^ e).
      rewrite (Round_SF_integral x) by (rewrite Hx; exact He).
      rewrite Hx. split; [exact Hf |].
      assert (E : SF2Q (S754_finite s m e)
                  = inject_Z (cond_Zopp s (Zpos m) * 2 ^ e))
        by (destruct e; try lia; reflexivity).
      rewrite E. split; [reflexivity | apply nearest_half_away_int].
Qed.


(** ** The loops of package numbers end

    Every product by ten raises the order of magnitude of a float by at
    least three binary digits, so that the loop of [multToNonZero], which
    runs while the value is below a tenth, ends long before its fuel does. *)

(** One shift to the right halves the mantissa, whatever the bits shifted
    out. *)
Lemma shr_1_m (mrs : shr_record) :
  0 <= shr_m mrs -> shr_m (shr_1 mrs) = shr_m mrs / 2.
Proof.
  destruct mrs as [m r0 s0]. cbn [shr_m]. intros H.
  destruct m as [| p | p]; try lia; [reflexivity |].
  destruct p as [p | p |]; cbn [shr_1 shr_m].
  - rewrite Pos2Z.inj_xI. apply Z.div_unique with 1; lia.
  - rewrite Pos2Z.inj_xO. apply Z.div_unique with 0; lia.
  - reflexivity.
Qed.

Lemma shr_iter_m (p : positive) :
  forall mrs, 0 <= shr_m mrs ->
    shr_m (SpecFloat.iter_pos shr_1 p mrs) = shr_m mrs / 2 ^ Zpos p.
Proof.
  induction p as [p IH | p IH |]; intros mrs H.
  - cbn [SpecFloat.iter_pos].
    assert (P : 0 < 2 ^ Zpos p) by (apply Z.pow_pos_nonneg; lia).
    assert (H1 : 0 <= shr_m (shr_1 mrs))
      by (rewrite shr_1_m by lia; apply Z.div_pos; lia).
    assert (H2 : 0 <= shr_m (SpecFloat.iter_pos shr_1 p (shr_1 mrs)))
      by (rewrite IH by lia; apply Z.div_pos; lia).
    rewrite IH, IH, shr_1_m by lia.
    rewrite !Z.div_div by lia. f_equal.
    replace (Zpos p~1) with (1 + Zpos p + Zpos p) by lia.
    rewrite !Z.pow_add_r by lia. change (2 ^ 1) with 2. lia.
  - cbn [SpecFloat.iter_pos].
    assert (P : 0 < 2 ^ Zpos p) by (apply Z.pow_pos_nonneg; lia).
    assert (H2 : 0 <= shr_m (SpecFloat.iter_pos shr_1 p mrs))
      by (rewrite IH by lia; apply Z.div_pos; lia).
    rewrite IH, IH by lia.
    rewrite !Z.div_div by lia. f_equal.
    replace (Zpos p~0) with (Zpos p + Zpos p) by lia.
    rewrite !Z.pow_add_r by lia. reflexivity.
  - cbn [SpecFloat.iter_pos]. rewrite shr_1_m by lia. reflexivity.
Qed.

Lemma round_nearest_even_bounds (m : Z) (l : location) :
  m <= round_nearest_even m l <= m + 1.
Proof.
  destruct l as [| c]; cbn [round_nearest_even]; [lia |].
  destruct c; try lia. destruct (Z.even m); lia.
Qed.

Lemma Zdigits2_log2 (m : Z) : 0 < m -> Zdigits2 m = Z.log2 m + 1.
Proof.
  intros H. destruct m as [| p | p]; try lia. apply digits2_pos_log2.
Qed.

(** Shifting a mantissa into its format keeps the order of magnitude. *)
Lemma shr_fexp_mag (m e : Z) :
  0 < m -> -1074 < Z.log2 m + 1 + e ->
  0 < shr_m (fst (shr_fexp prec emax m e loc_Exact)) /\
  Z.log2 (shr_m (fst (shr_fexp prec emax m e loc_Exact)))
  + snd (shr_fexp prec emax m e loc_Exact) = Z.log2 m + e.
Proof.
  intros Hm Hmag. unfold shr_fexp. rewrite (Zdigits2_log2 m Hm), fexp_eq.
  cbn [shr_record_of_loc].
  set (c := Z.max (Z.log2 m + 1 + e - 53) (-1074) - e).
  pose proof (Z.log2_nonneg m) as L0.
  assert (Hc : c <= Z.log2 m) by (unfold c; lia).
  unfold shr. destruct c as [| cp | cp] eqn:Ec; cbn [fst snd shr_m]; try lia.
  rewrite shr_iter_m by (cbn [shr_m]; lia). cbn [shr_m].
  rewrite <- Z.shiftr_div_pow2 by lia.
  assert (L : Z.log2 (Z.shiftr m (Zpos cp)) = Z.log2 m - Zpos cp).
  { rewrite Z.log2_shiftr by lia. lia. }
  split; [| lia].
  destruct (Z.shiftr m (Zpos cp)) as [| q | q] eqn:Eq; try lia.
  - assert (Z.log2 m < Zpos cp); [| lia].
    apply Z.shiftr_eq_0_iff in Eq. destruct Eq as [-> | [_ Eq]]; lia.
  - pose proof (Z.shiftr_nonneg m (Zpos cp)) as N. rewrite Eq in N. lia.
Qed.

Lemma binary_round_aux_mag (s : bool) (p : positive) (E : Z) :
  -1074 < Z.log2 (Zpos p) + 1 + E ->
  binary_round_aux prec emax s (Zpos p) E loc_Exact = S754_infinity s \/
  exists m3 e3,
    binary_round_aux prec emax s (Zpos p) E loc_Exact = S754_finite s m3 e3 /\
    Z.log2 (Zpos p) + E <= Z.log2 (Zpos m3) + e3.
Proof.
  intros Hmag. unfold binary_round_aux.
  destruct (shr_fexp_mag (Zpos p) E eq_refl Hmag) as [P1 L1].
  destruct (shr_fexp prec emax (Zpos p) E loc_Exact) as [mrs1 e1].
  cbn [fst snd] in P1, L1.
  pose proof (round_nearest_even_bounds (shr_m mrs1)
                (loc_of_shr_record mrs1)) as B.
  set (m2 := round_nearest_even (shr_m mrs1) (loc_of_shr_record mrs1)) in *.
  assert (P2 : 0 < m2) by lia.
  assert (L2 : Z.log2 (shr_m mrs1) <= Z.log2 m2) by (apply Z.log2_le_mono; lia).
  destruct (shr_fexp_mag m2 e1 P2) as [P3 L3]; [lia |].
  destruct (shr_fexp prec emax m2 e1 loc_Exact) as [mrs3 e3].
  cbn [fst snd] in P3, L3.
  destruct (shr_m mrs3) as [| m3 | m3] eqn:E3; try lia.
  destruct (Z.leb_spec e3 (emax - prec)); [right | left; reflexivity].
  exists m3, e3. split; [reflexivity | lia].
Qed.

Lemma log2_mul_lower (a b j : Z) :
  0 < a -> 0 <= j -> 2 ^ j <= b -> Z.log2 a + j <= Z.log2 (a * b).
Proof.
  intros Ha Hj Hb. rewrite Z.add_comm, <- Z.log2_mul_pow2 by lia.
  apply Z.log2_le_mono. nia.
Qed.

(** The product by another float is an infinity or at least as large, in
    order of magnitude, as the product of the orders. *)
Lemma mul_mag (v w : float) (s t : bool) (m n : positive) (e f j : Z) :
  Prim2SF v = S754_finite s m e -> Prim2SF w = S754_finite t n f ->
  0 <= j -> 2 ^ j <= Zpos n -> 0 <= j + f ->
  Prim2SF (v * w)%float = S754_infinity (xorb s t) \/
  exists m' e',
    Prim2SF (v * w)%float = S754_finite (xorb s t) m' e' /\
    Z.log2 (Zpos m) + e + (j + f) <= Z.log2 (Zpos m') + e'.
Proof.
  intros Hv Hw Hj Hn Hf. rewrite mul_spec, Hv, Hw. cbv [SF64mul SFmul].
  destruct (Prim2SF_finite_valid v s m e Hv) as [V _].
  pose proof (Z.log2_nonneg (Zpos m)) as L0.
  pose proof (log2_mul_lower (Zpos m) (Zpos n) j eq_refl Hj Hn) as L.
  rewrite <- Pos2Z.inj_mul in L.
  destruct (binary_round_aux_mag (xorb s t) (m * n) (e + f))
    as [H | (m' & e' & H & B)].
  - lia.
  - left. exact H.
  - right. exists m', e'. split; [exact H | lia].
Qed.

Lemma ge_eighth_not_lt_tenth (v : float) (m : positive) (e : Z) :
  Prim2SF v = S754_finite false m e -> -3 <= Z.log2 (Zpos m) + e ->
  (v <? 0.1)%float = false.
Proof.
  intros Hv Hmag. destruct (Prim2SF_finite_valid v false m e Hv) as [V _].
  rewrite digits2_pos_log2 in V.
  rewrite FloatAxioms.ltb_spec, Hv.
  change (Prim2SF 0.1) with (S754_finite false 7205759403792794 (-56)).
  cbv [SFltb SFcompare].
  destruct (Z.compare_spec e (-56)); reflexivity || lia.
Qed.

Lemma multToNonZero_loop_terminates (fuel : nat) :
  forall (v : float) (mult : Z),
    (1 <= fuel)%nat ->
    Prim2SF v = S754_infinity false \/
    (exists m e, Prim2SF v = S754_finite false m e /\
                 -3 - 3 * (Z.of_nat fuel - 1) <= Z.log2 (Zpos m) + e) ->
    multToNonZero_loop fuel v mult <> None.
Proof.
  induction fuel as [| fuel IH]; intros v mult Hf Hv; [lia |].
  cbn [multToNonZero_loop].
  destruct (v <? 0.1)%float eqn:Hlt; [| discriminate].
  destruct Hv as [Hv | (m & e & Hv & Hmag)].
  - rewrite FloatAxioms.ltb_spec, Hv in Hlt. discriminate.
  - destruct fuel as [| fuel'].
    + assert (H3 : -3 <= Z.log2 (Zpos m) + e) by lia.
      rewrite (ge_eighth_not_lt_tenth v m e Hv H3) in Hlt.
      discriminate.
    + apply IH; [lia |].
      destruct (mul_mag v 10%float false false m 5629499534213120 e (-49) 52 Hv
                  eq_refl) as [H | (m' & e' & H & B)]; try lia.
      * left. exact H.
      * right. exists m', e'. split; [exact H |].
        rewrite Nat2Z.inj_succ in Hmag. rewrite Nat2Z.inj_succ. lia.
Qed.

(** [multToNonZero] returns on every float that is not a zero. *)
Lemma multToNonZero_terminates (f : float) :
  (f =? 0)%float = false -> multToNonZero f <> None.
Proof.
  intros Hnz. unfold multToNonZero, loop_fuel.
  rewrite FloatAxioms.eqb_spec in Hnz.
  change (Prim2SF 0) with (S754_zero false) in Hnz.
  destruct (f <? 0)%float eqn:Hneg; rewrite FloatAxioms.ltb_spec in Hneg;
    change (Prim2SF 0) with (S754_zero false) in Hneg.
  - destruct (Prim2SF f) as [s | s | | s m e] eqn:Hf;
      try destruct s; try discriminate.
    + apply multToNonZero_loop_terminates; [lia |]. left.
      rewrite mul_spec, Hf. reflexivity.
    + apply multToNonZero_loop_terminates; [lia |].
      destruct (Prim2SF_finite_valid f true m e Hf) as [V _].
      pose proof (Z.log2_nonneg (Zpos m)) as L0.
      destruct (mul_mag f (-1)%float true true m 4503599627370496 e (-52) 52 Hf
                  eq_refl) as [H | (m' & e' & H & B)]; try lia.
      * left. exact H.
      * right. exists m', e'. split; [exact H |].
        change (Z.of_nat 400) with 400. lia.
  - destruct (Prim2SF f) as [s | s | | s m e] eqn:Hf;
      try destruct s; try discriminate.
    + apply multToNonZero_loop_terminates; [lia |]. left. exact Hf.
    + cbn [multToNonZero_loop]. rewrite FloatAxioms.ltb_spec, Hf. discriminate.
    + apply multToNonZero_loop_terminates; [lia |]. right. exists m, e.
      destruct (Prim2SF_finite_valid f false m e Hf) as [V _].
      pose proof (Z.log2_nonneg (Zpos m)) as L0.
      split; [exact Hf |]. change (Z.of_nat 400) with 400. lia.
Qed.

(** [RoundToNonZeroPlaces] returns on every float and every number of
    places: the fuel of the model is never used up. *)
Lemma RoundToNonZeroPlaces_total (f : float) (places : Z) :
  exists r z, RoundToNonZeroPlaces f places = Some (r, z).
Proof.
  unfold RoundToNonZeroPlaces.
  destruct (f =? 0)%float; [eauto |].
  destruct (zeroBeforeDecimal f =? 0)%float eqn:Hd; [eauto |].
  destruct (multToNonZero (zeroBeforeDecimal f)) as [nzMult |] eqn:Hm.
  - destruct (places =? 0); eauto.
  - exfalso. exact (multToNonZero_terminates _ Hd Hm).
Qed.

Lemma NewValue_total (v : float) (n : Z) :
  exists r, axes.NewValue v n = Ok (axes.mkValue v r n).
Proof.
  unfold axes.NewValue.
  destruct (RoundToNonZeroPlaces_total v n) as (r & z & ->). eauto.
Qed.

(** [NewYScale] fails only on the two checks of its arguments. *)
Lemma NewYScale_total (RowMult : Z) (min max : float) (graphHeight n : Z) :
  (max <? min)%float = false -> 1 <= graphHeight ->
  exists ys, axes.NewYScale RowMult min max graphHeight n = Ok ys.
Proof.
  intros Hlt Hh. unfold axes.NewYScale. rewrite Hlt.
  destruct (Z.ltb_spec graphHeight 1); [lia |].
  match goal with
  | |- context [axes.NewValue ?v n] =>
      destruct (NewValue_total v n) as (r1 & ->)
  end.
  cbn [bind].
  match goal with
  | |- context [axes.NewValue ?v n] =>
      destruct (NewValue_total v n) as (r2 & ->)
  end.
  cbn [bind].
  match goal with
  | |- context [axes.NewValue ?v n] =>
      destruct (NewValue_total v n) as (r3 & ->)
  end.
  cbn [bind]. eauto.
Qed.

(** C7 (MinMax and MinMaxInts).  The empty inputs give (0, 0), and the
    function is right between its sentinels ([MinMaxInts_within_sentinels]);
    but the sentinels are not the extremes of the type: on the one-element
    list [-2147483648] the maximum returned is the sentinel -2147483647, on
    [3000000000] the minimum returned is the sentinel 2147483647, and on the
    list holding only +Inf the minimum returned is [MaxFloat64]; none of
    them is an element of the list. *)
Theorem MinMax_sentinels_leak :
  numbers.MinMax [] = (0%float, 0%float) /\
  numbers.MinMaxInts [] = (0, 0) /\
  numbers.MinMaxInts [-2147483648] = (-2147483648, -2147483647) /\
  numbers.MinMaxInts [3000000000] = (2147483647, 3000000000) /\
  numbers.MinMax [infinity] = (MaxFloat64, infinity).
Proof. repeat split; vm_compute; reflexivity. Qed.

(** ** RadiansToDegrees *)

(** Two integers at the same distance of a half from a rational cannot both
    be farther from zero than it. *)
Lemma nearest_tie_excluded (a B z1 z2 : Z) :
  0 < B -> z1 < z2 ->
  Z.abs (z1 * B + - a * 1) * 2 <= 1 * B ->
  (Z.abs (z1 * B + - a * 1) * 2 = 1 * B -> Z.abs a * 1 < Z.abs z1 * B) ->
  Z.abs (z2 * B + - a * 1) * 2 <= 1 * B ->
  (Z.abs (z2 * B + - a * 1) * 2 = 1 * B -> Z.abs a * 1 < Z.abs z2 * B) ->
  False.
Proof.
  intros HB Hlt L1 T1 L2 T2.
  assert (E1 : Z.abs z1 * B = Z.abs (z1 * B))
    by (rewrite Z.abs_mul; f_equal; lia).
  assert (E2 : Z.abs z2 * B = Z.abs (z2 * B))
    by (rewrite Z.abs_mul; f_equal; lia).
  rewrite E1 in T1. rewrite E2 in T2.
  assert (D : B <= z2 * B - z1 * B) by nia.
  assert (S : z2 = z1 + 1).
  { assert (z2 * B - z1 * B <= B) by lia. nia. }
  assert (G : 0 <= z1 * B \/ z2 * B <= 0).
  { destruct (Z_le_dec 0 z1); [left; nia | right; nia]. }
  set (X1 := z1 * B) in *. set (X2 := z2 * B) in *. clearbody X1 X2.
  lia.
Qed.

(** At most one integer is the nearest to a rational with ties away from
    zero. *)
Lemma nearest_half_away_unique (q : Q) (z1 z2 : Z) :
  nearest_half_away q z1 -> nearest_half_away q z2 -> z1 = z2.
Proof.
  destruct q as [a b].
  unfold nearest_half_away, Qle, Qlt, Qeq, Qabs, Qminus, Qplus, Qopp, inject_Z.
  cbn [Qnum Qden]. rewrite !Pos.mul_1_l.
  change (Zpos 2) with 2. change (Zpos 1) with 1.
  set (B := Zpos b). assert (HB : 0 < B) by (unfold B; lia). clearbody B.
  intros [L1 T1] [L2 T2].
  destruct (Z.lt_trichotomy z1 z2) as [H | [H | H]]; [exfalso | exact H | exfalso].
  - exact (nearest_tie_excluded a B z1 z2 HB H L1 T1 L2 T2).
  - exact (nearest_tie_excluded a B z2 z1 HB H L2 T2 L1 T1).
Qed.

(** The conversion to [int] of a finite float that stands for an integer in
    the range of [int] is that integer. *)
Lemma to_int_integer (y : float) (z : Z) :
  is_finite y = true -> (float_to_Q y == inject_Z z)%Q ->
  GoInt.in_range z -> to_int y = z.
Proof.
  intros Hf HQ Hr. apply is_finite_SF in Hf. unfold float_to_Q in HQ.
  unfold to_int.
  destruct (Prim2SF y) as [s | s | | s m e]; try contradiction.
  - cbn [SF2Q] in HQ. unfold Qeq, inject_Z in HQ. cbn [Qnum Qden] in HQ. lia.
  - assert (E : SFtrunc_Z (S754_finite s m e) = z).
    { cbn [SFtrunc_Z]. destruct (Z.ltb_spec e 0) as [He | He].
      - destruct e as [| p | p]; try lia. cbn [SF2Q] in HQ.
        unfold Qeq, inject_Z in HQ. cbn [Qnum Qden] in HQ.
        rewrite Pos2Z.inj_pow in HQ. change (Zpos 2) with 2 in HQ.
        change (- Zneg p) with (Zpos p).
        rewrite Z.shiftr_div_pow2 by lia.
        assert (P : 0 < 2 ^ Zpos p) by (apply Z.pow_pos_nonneg; lia).
        rewrite Z.mul_1_r in HQ.
        destruct s; cbn [cond_Zopp] in *.
        + assert (Em : Zpos m = (- z) * 2 ^ Zpos p) by lia.
          rewrite Em, Z.div_mul by lia. lia.
        + rewrite HQ, Z.div_mul by lia. reflexivity.
      - rewrite Z.shiftl_mul_pow2 by lia.
        assert (E : SF2Q (S754_finite s m e)
                    = inject_Z (cond_Zopp s (Zpos m) * 2 ^ e))
          by (destruct e; try lia; reflexivity).
        rewrite E in HQ. unfold Qeq, inject_Z in HQ. cbn [Qnum Qden] in HQ.
        destruct s; cbn [cond_Zopp] in *; lia. }
    rewrite E. unfold GoInt.in_range in Hr.
    destruct (Z.leb_spec GoInt.MinInt64 z); [| lia].
    destruct (Z.leb_spec z GoInt.MaxInt64); [| lia]. reflexivity.
Qed.

(** The degrees before the normalization are the integer nearest to the
    angle in degrees, ties away from zero. *)
Lemma rounded_degrees_nearest (radians : float) (d : Z) :
  is_finite (radians * 180 / Pi)%float = true ->
  nearest_half_away (float_to_Q (radians * 180 / Pi)%float) d ->
  GoInt.in_range d ->
  rounded_degrees radians = d.
Proof.
  intros Hf Hd Hr. unfold rounded_degrees.
  destruct (Round_nearest _ Hf) as (z & HfR & HQ & Hz).
  pose proof (nearest_half_away_unique _ _ _ Hz Hd) as ->.
  exact (to_int_integer _ d HfR HQ Hr).
Qed.

(** C8 (RadiansToDegrees), as amended.  For an angle whose value in degrees,
    the float radians * 180 / Pi, is finite: the degrees before the
    normalization are the integer d nearest to that value, the farther from
    zero of two at the same distance; a d that is not negative is returned
    as it is and one turn is added to a negative d, so that for d in
    [-360, 0) the function returns d + 360, which lies in [0, 360), and for
    d below -360 it returns d + 360, which is still negative. *)
Theorem RadiansToDegrees_one_turn (radians : float) (d : Z) :
  is_finite (radians * 180 / Pi)%float = true ->
  nearest_half_away (float_to_Q (radians * 180 / Pi)%float) d ->
  GoInt.in_range d ->
  rounded_degrees radians = d /\
  numbers.RadiansToDegrees radians = (if d <? 0 then d + 360 else d) /\
  (- 360 <= d < 0 -> 0 <= numbers.RadiansToDegrees radians < 360) /\
  (d < - 360 -> numbers.RadiansToDegrees radians < 0).
Proof.
  intros Hf Hd Hr.
  pose proof (rounded_degrees_nearest radians d Hf Hd Hr) as E.
  split; [exact E |].
  assert (R : numbers.RadiansToDegrees radians = if d <? 0 then d + 360 else d).
  { unfold numbers.RadiansToDegrees. fold (rounded_degrees radians). rewrite E.
    destruct (Z.ltb_spec d 0); [| reflexivity].
    unfold GoInt.add. apply wrap_in_range.
    unfold GoInt.in_range, GoInt.MinInt64, GoInt.MaxInt64 in *. lia. }
  rewrite R. split; [reflexivity |].
  destruct (Z.ltb_spec d 0); lia.
Qed.

Lemma RadiansToDegrees_one_turn_witness :
  is_finite (-0.03 * 180 / Pi)%float = true /\
  nearest_half_away (float_to_Q (-0.03 * 180 / Pi)%float) (-2) /\
  rounded_degrees (-0.03)%float = -2 /\
  numbers.RadiansToDegrees (-0.03)%float = 358.
Proof.
  assert (Hf : is_finite (-0.03 * 180 / Pi)%float = true) by reflexivity.
  assert (Hd : nearest_half_away (float_to_Q (-0.03 * 180 / Pi)%float) (-2)).
  { split.
    - vm_compute. discriminate.
    - intros H. vm_compute in H. discriminate. }
  assert (Hr : GoInt.in_range (-2))
    by (unfold GoInt.in_range, GoInt.MinInt64, GoInt.MaxInt64; lia).
  split; [exact Hf |]. split; [exact Hd |].
  split.
  - exact (proj1 (RadiansToDegrees_one_turn (-0.03)%float (-2) Hf Hd Hr)).
  - exact (proj1 (proj2 (RadiansToDegrees_one_turn (-0.03)%float (-2) Hf Hd Hr))).
Defined.

(** C8, as stated, fails: -10 radians round to -573 degrees, a negative
    value, and the result -213 is not in [0, 360). *)
Lemma RadiansToDegrees_below_one_turn :
  ~ (forall radians : float,
        rounded_degrees radians < 0 ->
        0 <= numbers.RadiansToDegrees radians < 360).
Proof.
  intros H. specialize (H (-10)%float).
  assert (E : numbers.RadiansToDegrees (-10)%float = -213)
    by (vm_compute; reflexivity).
  rewrite E in H.
  assert (L : rounded_degrees (-10)%float < 0) by (vm_compute; reflexivity).
  specialize (H L). lia.
Qed.

(** ** The Y scale *)

Section YScaleProperties.

Import axes.
Local Open Scope float_scope.

(** C10 (ValueToPixel on a degenerate scale).  When the rounded step is
    zero, every value maps to pixel 0 with no error: the test on the step
    comes before any use of the value or of the bounds. *)
Theorem ValueToPixel_degenerate_step (ys : YScale) (v : float) :
  (Rounded (Step ys) =? 0) = true -> ValueToPixel ys v = Ok 0%Z.
Proof. intros H. unfold ValueToPixel. rewrite H. reflexivity. Qed.

Lemma NewValue_inv (v : float) (n : Z) (x : Value) :
  NewValue v n = Ok x -> Value_ x = v /\ NonZeroDecimals x = n.
Proof.
  unfold NewValue.
  destruct (numbers.RoundToNonZeroPlaces v n) as [[r z] |]; [| discriminate].
  intros E. injection E as <-. split; reflexivity.
Qed.

(** What a successful [NewYScale] is made of. *)
Lemma NewYScale_inv (RowMult : Z) (min max : float) (graphHeight n : Z)
  (ys : YScale) :
  NewYScale RowMult min max graphHeight n = Ok ys ->
  (max <? min) = false /\ (1 <= graphHeight)%Z /\
  Value_ (Min ys) = (if 0 <? min then 0 else min) /\
  Value_ (Max ys) = (if max <? 0 then 0 else max) /\
  GraphHeight ys = graphHeight /\
  brailleHeight ys = GoInt.mul graphHeight RowMult.
Proof.
  unfold NewYScale.
  destruct (max <? min); [discriminate |].
  destruct (Z.ltb_spec graphHeight 1); [discriminate |].
  destruct (NewValue _ n) as [step | |] eqn:Es; try discriminate.
  destruct (NewValue (if 0 <? min then 0 else min) n) as [vmin | |] eqn:Emin;
    try discriminate.
  destruct (NewValue (if max <? 0 then 0 else max) n) as [vmax | |] eqn:Emax;
    try discriminate.
  cbn [bind]. intros E. injection E as <-. cbn.
  apply NewValue_inv in Emin, Emax. intuition.
Qed.

(** C2 (zero inclusion), as amended.  When neither bound given by the
    caller is a NaN, a scale that [NewYScale] returns has
    Min.Value <= 0 <= Max.Value: a positive min is replaced by 0 and max is
    kept, a negative max is replaced by 0 and min is kept, and otherwise
    both bounds are the caller's. *)
Theorem NewYScale_includes_zero (RowMult : Z) (min max : float)
  (graphHeight nonZeroDecimals : Z) (ys : YScale) :
  is_nan min = false -> is_nan max = false ->
  NewYScale RowMult min max graphHeight nonZeroDecimals = Ok ys ->
  (Value_ (Min ys) <=? 0) = true /\ (0 <=? Value_ (Max ys)) = true /\
  ((0 <? min) = true -> Value_ (Min ys) = 0 /\ Value_ (Max ys) = max) /\
  ((max <? 0) = true -> Value_ (Max ys) = 0 /\ Value_ (Min ys) = min) /\
  ((0 <? min) = false -> (max <? 0) = false ->
   Value_ (Min ys) = min /\ Value_ (Max ys) = max).
Proof.
  intros Hmin Hmax E.
  apply NewYScale_inv in E. destruct E as (Hlt & _ & -> & -> & _).
  destruct (0 <? min) eqn:Pmin.
  - rewrite (pos_le_pos min max Hmax Pmin Hlt).
    repeat split; try reflexivity; try discriminate.
    apply not_neg_ge_zero; [exact Hmax |].
    exact (pos_le_pos min max Hmax Pmin Hlt).
  - destruct (max <? 0) eqn:Pmax.
    + repeat split; try reflexivity; try discriminate.
      apply not_pos_le_zero; assumption.
    + repeat split; try reflexivity; try discriminate.
      * apply not_pos_le_zero; assumption.
      * apply not_neg_ge_zero; assumption.
Qed.

End YScaleProperties.

Lemma ValueToPixel_degenerate_step_witness :
  exists ys, axes.NewYScale 4 0 0 2 2 = Ok ys /\
             (axes.Rounded (axes.Step ys) =? 0)%float = true /\
             axes.ValueToPixel ys 1e300%float = Ok 0.
Proof.
  eexists. split; [vm_compute; reflexivity |].
  split; [vm_compute; reflexivity |].
  apply ValueToPixel_degenerate_step. vm_compute. reflexivity.
Defined.

Lemma NewYScale_includes_zero_witness :
  exists ys, axes.NewYScale 4 5 5 2 2 = Ok ys /\
             axes.Value_ (axes.Min ys) = 0%float /\
             axes.Value_ (axes.Max ys) = 5%float.
Proof.
  eexists. split; [vm_compute; reflexivity |].
  refine (proj1 (proj2 (proj2
            (NewYScale_includes_zero 4 5 5 2 2 _ _ _ _))) _);
    vm_compute; reflexivity.
Defined.

(** C2, as stated, fails: NaN bounds pass the range check and stay in the
    scale, where they are neither at most zero nor at least zero. *)
Lemma NewYScale_nan_bounds :
  exists ys, axes.NewYScale 4 nan nan 1 2 = Ok ys /\
             (axes.Value_ (axes.Min ys) <=? 0)%float = false /\
             (0 <=? axes.Value_ (axes.Max ys))%float = false.
Proof. eexists. repeat split; vm_compute; reflexivity. Qed.

(** ** RoundToNonZeroPlaces *)

(** The twenty iterations given to the loop of [multToPlaces] are enough for
    every [int]: a longer run returns the same count. *)
Lemma multToPlaces_loop_stable (fuel : nat) :
  forall mult places : Z,
    mult < 10 ^ Z.of_nat fuel -> mult <= GoInt.MaxInt64 ->
    numbers.multToPlaces_loop (S fuel) mult places
    = numbers.multToPlaces_loop fuel mult places.
Proof.
  induction fuel as [| fuel IH]; intros mult places Hlt Hmax.
  - simpl in *. destruct (Z.ltb_spec 1 mult); [lia | reflexivity].
  - change (numbers.multToPlaces_loop (S (S fuel)) mult places)
      with (if 1 <? mult
            then numbers.multToPlaces_loop (S fuel) (GoInt.quot mult 10)
                   (GoInt.add places 1)
            else places).
    change (numbers.multToPlaces_loop (S fuel) mult places)
      with (if 1 <? mult
            then numbers.multToPlaces_loop fuel (GoInt.quot mult 10)
                   (GoInt.add places 1)
            else places).
    destruct (Z.ltb_spec 1 mult) as [H1 | H1]; [| reflexivity].
    rewrite Nat2Z.inj_succ, Z.pow_succ_r in Hlt by lia.
    unfold GoInt.MaxInt64 in Hmax.
    assert (Hq : 0 <= Z.quot mult 10 < mult).
    { split; [apply Z.quot_pos; lia | apply Z.quot_lt; lia]. }
    assert (Hq2 : Z.quot mult 10 < 10 ^ Z.of_nat fuel).
    { apply Z.quot_lt_upper_bound; lia. }
    unfold GoInt.quot.
    rewrite wrap_in_range
      by (unfold GoInt.in_range, GoInt.MinInt64, GoInt.MaxInt64; lia).
    apply IH; unfold GoInt.MaxInt64; lia.
Qed.

Lemma multToPlaces_fuel_enough (extra : nat) (mult : Z) :
  mult <= GoInt.MaxInt64 ->
  numbers.multToPlaces_loop (extra + 20) mult 0 = numbers.multToPlaces mult.
Proof.
  intros Hmax. unfold numbers.multToPlaces.
  induction extra as [| extra IH]; [reflexivity |].
  rewrite <- IH. change (S extra + 20)%nat with (S (extra + 20)).
  apply multToPlaces_loop_stable; [| exact Hmax].
  unfold GoInt.MaxInt64 in Hmax.
  assert (10 ^ 20 <= 10 ^ Z.of_nat (extra + 20))
    by (apply Z.pow_le_mono_r; lia).
  assert (2 ^ 63 < 10 ^ 20) by reflexivity. lia.
Qed.


(** The cases of the package's own table of expected results, the three of
    the specification among them. *)
Lemma RoundToNonZeroPlaces_table :
  numbers.RoundToNonZeroPlaces 0 0 = Some (0%float, 0) /\
  numbers.RoundToNonZeroPlaces 1.1 0 = Some (1.1%float, 0) /\
  numbers.RoundToNonZeroPlaces 1 (-1) = Some (1%float, 0) /\
  numbers.RoundToNonZeroPlaces 0.12345 2 = Some (0.13%float, 0) /\
  numbers.RoundToNonZeroPlaces 0.12345 (-2) = Some (0.13%float, 0) /\
  numbers.RoundToNonZeroPlaces 0.00012345 2 = Some (0.00013%float, 3) /\
  numbers.RoundToNonZeroPlaces 0.00012345 3 = Some (0.000124%float, 3) /\
  numbers.RoundToNonZeroPlaces 1.234567 2 = Some (1.24%float, 0) /\
  numbers.RoundToNonZeroPlaces (-1.234567) 2 = Some ((-1.23)%float, 0) /\
  numbers.RoundToNonZeroPlaces 1099.0000234567 3 = Some (1099.0000235%float, 4) /\
  numbers.RoundToNonZeroPlaces (-1099.0000234567) 3
    = Some ((-1099.0000234)%float, 4).
Proof. repeat split; vm_compute; reflexivity. Qed.

(** C6 (RoundToNonZeroPlaces rounds up).  The three cases of the
    specification hold, but the result is not always at least the argument.
    - For 1e-18 and two places the multiplier 10^17 * 10^2 does not fit an
      [int]: it wraps to -8446744073709551616, and the result, about
      9.47e-19, is below the argument.
    - For 1e-70 the first multiplier alone wraps to 0 and the result is a
      NaN, which is not at least anything.
    - For 1.9000000000000001 (the float next above 1.9) and one place the
      product by 10 rounds to 19 exactly, so the result is 1.9, below the
      argument. *)
Theorem RoundToNonZeroPlaces_rounds_below :
  numbers.RoundToNonZeroPlaces 0.00012345 2 = Some (0.00013%float, 3) /\
  numbers.RoundToNonZeroPlaces 1.234567 2 = Some (1.24%float, 0) /\
  numbers.RoundToNonZeroPlaces (-1.234567) 2 = Some ((-1.23)%float, 0) /\
  numbers.multToNonZero 1e-18 = Some (10 ^ 17) /\
  GoInt.mul (10 ^ 17) (numbers.placesToMult 2) = -8446744073709551616 /\
  (exists r, numbers.RoundToNonZeroPlaces 1e-18 2 = Some (r, 17) /\
             (1e-18 <=? r)%float = false /\ (r <? 1e-18)%float = true) /\
  numbers.multToNonZero 1e-70 = Some 0 /\
  numbers.RoundToNonZeroPlaces 1e-70 2 = Some (nan, 0) /\
  (1e-70 <=? nan)%float = false /\
  numbers.RoundToNonZeroPlaces 1.9000000000000001 1 = Some (1.9%float, 0) /\
  (1.9000000000000001 <=? 1.9)%float = false.
Proof.
  repeat split; try (vm_compute; reflexivity).
  eexists. repeat split; vm_compute; reflexivity.
Qed.

(** ** The round trip of the Y scale *)

(** C1 (pixel to value and back).  On the scale of [NewYScale(0, 1e-70, 1,
    2)], with four pixel rows in a cell, the rounded step is the NaN that
    [RoundToNonZeroPlaces] makes of 1e-70 / 3; it is not equal to zero, the
    interior rows 1 and 2 both map to a NaN, and [ValueToPixel] of it is an
    error, not the row. *)
Theorem YScale_round_trip_nan_step :
  exists ys,
    axes.NewYScale 4 0 1e-70 1 2 = Ok ys /\
    axes.brailleHeight ys = 4 /\
    (axes.Rounded (axes.Step ys) =? 0)%float = false /\
    axes.PixelToValue ys 1 = Ok nan /\
    axes.PixelToValue ys 2 = Ok nan /\
    axes.ValueToPixel ys nan = Err (ErrPosition GoInt.MinInt64 0 3).
Proof. eexists. repeat split; vm_compute; reflexivity. Qed.

(** The outer rows of a scale with at least two pixel rows give the rounded
    bounds: the bottom row the minimum, the top row the maximum. *)
Lemma PixelToValue_boundary_rows (ys : axes.YScale) :
  2 <= axes.brailleHeight ys <= GoInt.MaxInt64 ->
  axes.PixelToValue ys (axes.brailleHeight ys - 1)
  = Ok (axes.Rounded (axes.Min ys)) /\
  axes.PixelToValue ys 0 = Ok (axes.Rounded (axes.Max ys)).
Proof.
  intros H. unfold GoInt.MaxInt64 in H.
  assert (W : forall z, - 2 ^ 63 <= z <= 2 ^ 63 - 1 -> GoInt.wrap z = z)
    by (intros z Hz; apply wrap_in_range; exact Hz).
  unfold axes.PixelToValue, axes.yToPosition, GoInt.sub, GoInt.add, GoInt.mul.
  set (h := axes.brailleHeight ys) in *.
  rewrite (W (h - 1)) by lia. split.
  - destruct (Z.ltb_spec (h - 1) 0); [lia |].
    destruct (Z.ltb_spec (h - 1) (h - 1)); [lia |]. cbn [orb bind].
    rewrite (W (-1 * (h - 1))) by lia.
    replace (-1 * (h - 1) + (h - 1)) with 0 by lia. reflexivity.
  - change (0 <? 0) with false.
    destruct (Z.ltb_spec (h - 1) 0); [lia |]. cbn [orb bind].
    change (GoInt.wrap (-1 * 0)) with 0. rewrite Z.add_0_l, (W (h - 1)) by lia.
    destruct (Z.eqb_spec (h - 1) 0); [lia |].
    rewrite Z.eqb_refl. reflexivity.
Qed.

(** On the scale of the package's tests the round trip holds on every
    interior row, and the outer rows give the rounded bounds. *)
Lemma YScale_round_trip_0_5 :
  exists ys,
    axes.NewYScale 4 0 5 2 2 = Ok ys /\
    Forall (fun y => bind (axes.PixelToValue ys y) (axes.ValueToPixel ys) = Ok y)
      [1; 2; 3; 4; 5; 6] /\
    axes.PixelToValue ys 7 = Ok (axes.Rounded (axes.Min ys)) /\
    axes.PixelToValue ys 0 = Ok (axes.Rounded (axes.Max ys)).
Proof.
  eexists. split; [vm_compute; reflexivity |].
  split; [| split; vm_compute; reflexivity].
  repeat constructor; vm_compute; reflexivity.
Qed.

(** ** Round *)



(** The two zeros are different floats, so that keeping the sign of a zero
    says something. *)
Lemma zero_is_not_neg_zero : zero <> neg_zero.
Proof.
  intros E.
  assert (H : Prim2SF zero = Prim2SF neg_zero) by (rewrite E; reflexivity).
  vm_compute in H. discriminate.
Qed.

(** ** The labels of the axes *)

(** The functions that place the labels are not among the sources; the
    values they put on the labels come from [CellLabel] and [ValueToCell],
    which are.  On the scale of [NewYScale(5, 5, 2, 2)], with four pixel rows
    in a cell, the bottom row is labelled 0 and the top row 2.88, the values
    [NewValue] gives to 0 and 2.88. *)
Lemma CellLabel_flat_5_5 :
  exists ys v0 v1,
    axes.NewYScale 4 5 5 2 2 = Ok ys /\
    axes.CellLabel 4 ys 1 = Ok v0 /\ axes.NewValue 0 2 = Ok v0 /\
    axes.CellLabel 4 ys 0 = Ok v1 /\ axes.NewValue 2.88 2 = Ok v1.
Proof. do 3 eexists. repeat split; vm_compute; reflexivity. Qed.

(** On the scale of [NewXScale(4, 100, 2)], with two pixel columns in a
    cell, the values 0, 1, 2, 3 are in the cells 0, 31, 62, 94, and these
    cells are labelled 0, 1, 2, 3. *)
Lemma XScale_four_points :
  exists xs,
    axes.NewXScale 2 4 100 2 = Ok xs /\
    map (axes.XValueToCell 2 xs) [0; 1; 2; 3] = [Ok 0; Ok 31; Ok 62; Ok 94] /\
    map (axes.XCellLabel 2 xs) [0; 31; 62; 94]
    = map (fun v => axes.NewValue v 2) [0; 1; 2; 3]%float.
Proof. eexists. repeat split; vm_compute; reflexivity. Qed.

(** * Further properties of the code *)

(** ** Arithmetic on [int] *)

Ltac int_range :=
  unfold GoInt.in_range, GoInt.MinInt64, GoInt.MaxInt64 in *; lia.

Lemma wrap_range (z : Z) : GoInt.in_range (GoInt.wrap z).
Proof.
  unfold GoInt.in_range, GoInt.wrap, GoInt.MinInt64, GoInt.MaxInt64.
  pose proof (Z.mod_pos_bound (z + 2 ^ 63) (2 ^ 64)). lia.
Qed.

Lemma sub_in_range (a b : Z) :
  GoInt.in_range (a - b) -> GoInt.sub a b = a - b.
Proof. apply wrap_in_range. Qed.

(** A product may be reduced before or after a factor is multiplied in. *)
Lemma wrap_wrap_mul (a b : Z) :
  GoInt.wrap (GoInt.wrap a * b) = GoInt.wrap (a * b).
Proof.
  unfold GoInt.wrap. f_equal.
  replace ((a + 2 ^ 63) mod 2 ^ 64 - 2 ^ 63) with
    (a - 2 ^ 64 * ((a + 2 ^ 63) / 2 ^ 64))
    by (pose proof (Z.div_mod (a + 2 ^ 63) (2 ^ 64)); lia).
  replace ((a - 2 ^ 64 * ((a + 2 ^ 63) / 2 ^ 64)) * b + 2 ^ 63)
    with (a * b + 2 ^ 63 + (- ((a + 2 ^ 63) / 2 ^ 64) * b) * 2 ^ 64) by ring.
  apply Z.mod_add. lia.
Qed.

Lemma Z_iter_succ {A : Type} (f : A -> A) (x : A) (n : Z) :
  0 <= n -> Z.iter (Z.succ n) f x = f (Z.iter n f x).
Proof.
  intros Hn. destruct n as [| p | p]; try lia; [reflexivity |].
  change (Z.succ (Zpos p)) with (Zpos p + 1). cbn [Z.add Z.iter].
  rewrite Pos.add_1_r. apply Pos.iter_succ.
Qed.

(** ** placesToMult and multToPlaces *)

(** The loop of [placesToMult] computes the power of ten in 64 bits. *)
Lemma placesToMult_iter (n : Z) :
  0 <= n -> Z.iter n (fun mult => GoInt.mul mult 10) 1 = GoInt.wrap (10 ^ n).
Proof.
  intros Hn. revert n Hn. apply natlike_ind.
  - reflexivity.
  - intros n Hn IH. rewrite Z_iter_succ by lia. rewrite IH.
    unfold GoInt.mul. rewrite wrap_wrap_mul. f_equal.
    rewrite Z.pow_succ_r by lia. ring.
Qed.

Lemma placesToMult_closed (p : Z) :
  GoInt.MinInt64 < p <= GoInt.MaxInt64 ->
  placesToMult p = GoInt.wrap (10 ^ Z.abs p).
Proof.
  unfold GoInt.MinInt64, GoInt.MaxInt64. intros H. unfold placesToMult.
  destruct (Z.ltb_spec p 0).
  - unfold GoInt.mul. rewrite wrap_in_range
      by (unfold GoInt.in_range, GoInt.MinInt64, GoInt.MaxInt64; lia).
    rewrite placesToMult_iter by lia. f_equal. f_equal. lia.
  - rewrite placesToMult_iter by lia. f_equal. f_equal. lia.
Qed.

Lemma placesToMult_opp (p : Z) :
  GoInt.MinInt64 < p <= GoInt.MaxInt64 -> placesToMult (- p) = placesToMult p.
Proof.
  intros H.
  rewrite !placesToMult_closed
    by (unfold GoInt.MinInt64, GoInt.MaxInt64 in *; lia).
  now rewrite Z.abs_opp.
Qed.

(** Ten to the 64 is a multiple of two to the 64: from 64 places on the
    multiplier has wrapped to zero. *)
Lemma placesToMult_overflow (p : Z) :
  GoInt.MinInt64 < p <= GoInt.MaxInt64 -> 64 <= Z.abs p -> placesToMult p = 0.
Proof.
  intros H H64. rewrite placesToMult_closed by exact H.
  replace (Z.abs p) with (64 + (Z.abs p - 64)) by lia.
  rewrite Z.pow_add_r by lia.
  assert (E64 : 10 ^ 64 = 2 ^ 64 * 5 ^ 64) by (vm_compute; reflexivity).
  rewrite E64. clear E64.
  unfold GoInt.wrap.
  replace (2 ^ 64 * 5 ^ 64 * 10 ^ (Z.abs p - 64) + 2 ^ 63)
    with (2 ^ 63 + (5 ^ 64 * 10 ^ (Z.abs p - 64)) * 2 ^ 64) by ring.
  rewrite Z.mod_add by lia. reflexivity.
Qed.

Lemma multToPlaces_pow10 (n : Z) :
  0 <= n <= 18 -> multToPlaces (10 ^ n) = n.
Proof.
  intros H.
  assert (E : In n [0;1;2;3;4;5;6;7;8;9;10;11;12;13;14;15;16;17;18]).
  { cbn [In]. lia. }
  cbn [In] in E.
  repeat (destruct E as [E | E]; [subst n; vm_compute; reflexivity |]).
  destruct E.
Qed.

(** The loop of [multToPlaces] counts at most as many places as the
    multiplier has decimal digits. *)
Lemma multToPlaces_loop_bounds (fuel : nat) :
  forall mult places k : Z,
    0 <= k -> mult < 10 ^ k -> 0 <= places -> places + k <= GoInt.MaxInt64 ->
    places <= multToPlaces_loop fuel mult places <= places + k.
Proof.
  induction fuel as [| fuel IH]; intros mult places k Hk Hlt Hp Hpk;
    cbn [multToPlaces_loop]; [lia |].
  destruct (Z.ltb_spec 1 mult) as [H1 | H1]; [| lia].
  assert (Hk1 : 1 <= k).
  { destruct (Z.eq_dec k 0) as [-> | ]; [simpl in Hlt; lia | lia]. }
  replace k with (Z.succ (k - 1)) in Hlt by lia.
  rewrite Z.pow_succ_r in Hlt by lia.
  unfold GoInt.MaxInt64 in Hpk.
  assert (Hq : 0 <= Z.quot mult 10 < mult).
  { split; [apply Z.quot_pos; lia | apply Z.quot_lt; lia]. }
  assert (Hq2 : Z.quot mult 10 < 10 ^ (k - 1)).
  { apply Z.quot_lt_upper_bound; lia. }
  assert (Hw : GoInt.quot mult 10 <= Z.quot mult 10).
  { unfold GoInt.quot, GoInt.wrap.
    pose proof (Z.mod_le (Z.quot mult 10 + 2 ^ 63) (2 ^ 64)). lia. }
  unfold GoInt.add.
  rewrite (wrap_in_range (places + 1))
    by (unfold GoInt.in_range, GoInt.MinInt64, GoInt.MaxInt64; lia).
  specialize (IH (GoInt.quot mult 10) (places + 1) (k - 1)).
  unfold GoInt.MaxInt64 in IH. lia.
Qed.

Lemma multToPlaces_bounds (mult : Z) :
  mult <= GoInt.MaxInt64 -> 0 <= multToPlaces mult <= 19.
Proof.
  intros H. unfold multToPlaces.
  apply (multToPlaces_loop_bounds 20 mult 0 19);
    unfold GoInt.MaxInt64 in *; lia.
Qed.

(** X1 (placesToMult and multToPlaces).  Up to 18 places, of either sign,
    [placesToMult] returns the exact power of ten, ten to the magnitude of
    the places, and [multToPlaces] gives the number of places back. *)
Theorem placesToMult_multToPlaces (places : Z) :
  Z.abs places <= 18 ->
  placesToMult places = 10 ^ Z.abs places /\
  multToPlaces (placesToMult places) = Z.abs places.
Proof.
  intros H.
  assert (E : placesToMult places = 10 ^ Z.abs places).
  { rewrite placesToMult_closed by (unfold GoInt.MinInt64, GoInt.MaxInt64; lia).
    apply wrap_in_range. unfold GoInt.in_range, GoInt.MinInt64, GoInt.MaxInt64.
    assert (0 < 10 ^ Z.abs places) by (apply Z.pow_pos_nonneg; lia).
    assert (10 ^ Z.abs places <= 10 ^ 18) by (apply Z.pow_le_mono_r; lia).
    lia. }
  split; [exact E |]. rewrite E. apply multToPlaces_pow10. lia.
Qed.

Lemma placesToMult_multToPlaces_witness :
  placesToMult (- 3) = 10 ^ Z.abs (- 3) /\
  multToPlaces (placesToMult (- 3)) = Z.abs (- 3).
Proof. apply (placesToMult_multToPlaces (- 3)). simpl. lia. Defined.

(** ** multToNonZero *)

Lemma multToNonZero_loop_in_range (fuel : nat) :
  forall (v : float) (mult m : Z),
    GoInt.in_range mult ->
    multToNonZero_loop fuel v mult = Some m -> GoInt.in_range m.
Proof.
  induction fuel as [| fuel IH]; intros v mult m Hr; cbn [multToNonZero_loop].
  - discriminate.
  - destruct (v <? 0.1)%float.
    + apply IH. apply wrap_range.
    + intros [= <-]. exact Hr.
Qed.

Lemma multToNonZero_in_range (f : float) (m : Z) :
  multToNonZero f = Some m -> GoInt.in_range m.
Proof. apply multToNonZero_loop_in_range. int_range. Qed.

(** On a zero the loop goes on for ever: ten times zero is zero. *)
Lemma multToNonZero_loop_zero (fuel : nat) :
  forall (v : float) (s : bool) (mult : Z),
    Prim2SF v = S754_zero s -> multToNonZero_loop fuel v mult = None.
Proof.
  induction fuel as [| fuel IH]; intros v s mult Hv; cbn [multToNonZero_loop].
  - reflexivity.
  - rewrite FloatAxioms.ltb_spec, Hv.
    change (SFltb (S754_zero s) (Prim2SF 0.1)) with true. cbv iota.
    apply (IH _ s). rewrite mul_spec, Hv. destruct s; reflexivity.
Qed.

(** X2 (multToNonZero).  "The float must not be zero": on every float that
    is not equal to zero, NaN and the infinities included, the loop ends
    and returns an [int]; on a zero of either sign it never ends, whatever
    the number of iterations it is given. *)
Theorem multToNonZero_ends_iff_nonzero (f : float) :
  ((f =? 0)%float = false ->
   exists mult, multToNonZero f = Some mult /\ GoInt.in_range mult) /\
  ((f =? 0)%float = true ->
   forall fuel : nat,
     multToNonZero_loop fuel (if (f <? 0)%float then (f * (-1))%float else f) 1
     = None).
Proof.
  split.
  - intros Hnz. destruct (multToNonZero f) as [m |] eqn:E.
    + exists m. split; [reflexivity | exact (multToNonZero_in_range _ _ E)].
    + exfalso. exact (multToNonZero_terminates _ Hnz E).
  - intros Hz fuel.
    rewrite FloatAxioms.eqb_spec in Hz. rewrite FloatAxioms.ltb_spec.
    change (Prim2SF 0) with (S754_zero false) in *.
    destruct (Prim2SF f) as [s | s | | s m e] eqn:Hf;
      try destruct s; try discriminate; cbv [SFltb SFcompare].
    + apply (multToNonZero_loop_zero fuel f true). exact Hf.
    + apply (multToNonZero_loop_zero fuel f false). exact Hf.
Qed.

(** ** RoundToNonZeroPlaces on every input *)

(** X3 (RoundToNonZeroPlaces returns).  On every float and every number of
    places the function returns; the count of zero places it reports lies
    between 0 and 19; a float equal to zero gives (0, 0); and with zero
    places a float that is not zero comes back as it is. *)
Theorem RoundToNonZeroPlaces_returns (f : float) (places : Z) :
  exists (r : float) (z : Z),
    RoundToNonZeroPlaces f places = Some (r, z) /\
    0 <= z <= 19 /\
    ((f =? 0)%float = true -> r = 0%float /\ z = 0) /\
    ((f =? 0)%float = false -> places = 0 -> r = f).
Proof.
  unfold RoundToNonZeroPlaces.
  destruct (f =? 0)%float.
  { exists 0%float, 0. repeat split; try lia; discriminate. }
  destruct (zeroBeforeDecimal f =? 0)%float eqn:Hd.
  { exists f, 0. repeat split; try lia; discriminate. }
  destruct (multToNonZero (zeroBeforeDecimal f)) as [nzMult |] eqn:Hm.
  - pose proof (multToNonZero_in_range _ _ Hm) as [_ Hr].
    pose proof (multToPlaces_bounds nzMult Hr) as Hb.
    destruct (Z.eqb_spec places 0) as [E | E].
    + exists f, (multToPlaces nzMult). repeat split; try lia; discriminate.
    + eexists _, (multToPlaces nzMult). split; [reflexivity |].
      repeat split; try lia; try discriminate.
  - exfalso. exact (multToNonZero_terminates _ Hd Hm).
Qed.

(** X4 (negative places).  "Negative places are treated as positive": the
    result for a number of places and for its opposite are the same. *)
Theorem RoundToNonZeroPlaces_places_sign (f : float) (places : Z) :
  GoInt.MinInt64 < places <= GoInt.MaxInt64 ->
  RoundToNonZeroPlaces f (- places) = RoundToNonZeroPlaces f places.
Proof.
  intros H. unfold RoundToNonZeroPlaces.
  rewrite placesToMult_opp by exact H.
  replace (- places =? 0) with (places =? 0)
    by (destruct (Z.eqb_spec places 0), (Z.eqb_spec (- places) 0);
        lia || reflexivity).
  reflexivity.
Qed.

Lemma RoundToNonZeroPlaces_places_sign_witness :
  RoundToNonZeroPlaces 0.12345 (- 2) = RoundToNonZeroPlaces 0.12345 2.
Proof.
  apply (RoundToNonZeroPlaces_places_sign 0.12345 2).
  unfold GoInt.MinInt64, GoInt.MaxInt64. lia.
Defined.

Lemma Ceil_div_zero (x : float) (s : bool) :
  Prim2SF x = S754_zero s -> (Ceil x / 0)%float = nan.
Proof.
  intros Hx.
  assert (E : x = zero \/ x = neg_zero).
  { destruct s; [right | left]; apply Prim2SF_inj; rewrite Hx; reflexivity. }
  destruct E as [-> | ->]; vm_compute; reflexivity.
Qed.

(** X5 (64 places and more).  From 64 places on the multiplier of the
    places has wrapped to zero in the 64-bit [int], and the float returned
    for a finite value with a fraction is the NaN of zero divided by
    zero. *)
Theorem RoundToNonZeroPlaces_too_many_places (f : float) (places : Z) :
  GoInt.MinInt64 < places <= GoInt.MaxInt64 -> 64 <= Z.abs places ->
  is_finite f = true -> (zeroBeforeDecimal f =? 0)%float = false ->
  exists z, RoundToNonZeroPlaces f places = Some (nan, z).
Proof.
  intros Hr H64 Hfin Hdec.
  destruct (RoundToNonZeroPlaces_total f places) as (r & z & E).
  exists z. rewrite E. unfold RoundToNonZeroPlaces in E.
  destruct (f =? 0)%float eqn:Hz.
  { exfalso. rewrite FloatAxioms.eqb_spec in Hz.
    change (Prim2SF 0) with (S754_zero false) in Hz.
    assert (Ef : f = zero \/ f = neg_zero).
    { destruct (Prim2SF f) as [s | s | | s m e] eqn:Hf;
        try destruct s; try discriminate;
        [right | left]; apply Prim2SF_inj; rewrite Hf; reflexivity. }
    destruct Ef as [-> | ->]; vm_compute in Hdec; discriminate. }
  rewrite Hdec in E.
  destruct (multToNonZero (zeroBeforeDecimal f)) as [nzMult |]; [| discriminate].
  destruct (Z.eqb_spec places 0) as [E0 | E0]; [lia |].
  rewrite placesToMult_overflow in E by assumption.
  unfold GoInt.mul in E. rewrite Z.mul_0_r in E.
  change (of_int (GoInt.wrap 0)) with 0%float in E.
  injection E as <- _. f_equal. f_equal.
  apply is_finite_SF in Hfin.
  destruct (Prim2SF f) as [s | s | | s m e] eqn:Hf; try contradiction.
  - apply (Ceil_div_zero _ (xorb s false)). rewrite mul_spec, Hf. reflexivity.
  - apply (Ceil_div_zero _ (xorb s false)). rewrite mul_spec, Hf. reflexivity.
Qed.

Lemma RoundToNonZeroPlaces_too_many_places_witness :
  exists z, RoundToNonZeroPlaces 0.5 64 = Some (nan, z).
Proof.
  apply (RoundToNonZeroPlaces_too_many_places 0.5 64).
  - unfold GoInt.MinInt64, GoInt.MaxInt64. lia.
  - simpl. lia.
  - reflexivity.
  - reflexivity.
Defined.

(** ** Integer values and fractions *)

Lemma binary_round_aux_shr (s : bool) (q h : positive) (e : Z) :
  fexp prec emax (Zpos (digits2_pos (Pos.iter xO q h)) + e) = e + Zpos h ->
  e + Zpos h <= 971 ->
  binary_round_aux prec emax s (Zpos (Pos.iter xO q h)) e loc_Exact
  = S754_finite s q (e + Zpos h).
Proof.
  intros Hf He.
  cbv [binary_round_aux shr_fexp Zdigits2 shr_record_of_loc].
  rewrite Hf. replace (e + Zpos h - e) with (Zpos h) by lia.
  cbv [shr]. rewrite shr_exact.
  cbv [shr_m loc_of_shr_record round_nearest_even Zdigits2 shr_record_of_loc].
  rewrite digits2_pos_iter_xO in Hf.
  replace (Zpos (digits2_pos q) + (e + Zpos h))
    with (Zpos (digits2_pos q + h) + e) by lia.
  rewrite Hf, Z.sub_diag.
  replace (e + Zpos h <=? emax - prec) with true; [reflexivity |].
  symmetry. apply Z.leb_le. exact He.
Qed.

(** Multiplying a finite value by 1 or by -1 is exact. *)
Lemma mul_unit (x : float) (s t : bool) (m : positive) (e : Z) :
  Prim2SF x = S754_finite s m e ->
  SFmul prec emax (S754_finite s m e) (S754_finite t 4503599627370496 (-52))
  = S754_finite (xorb s t) m e.
Proof.
  intros Hx. destruct (Prim2SF_finite_valid x s m e Hx) as [V Ve].
  cbv [SFmul].
  assert (E : (m * 4503599627370496)%positive = Pos.iter xO m 52).
  { apply pos_of_iter_xO. rewrite Pos2Z.inj_mul. reflexivity. }
  rewrite E.
  replace e with (e + -52 + Zpos 52) at 2 by lia.
  apply binary_round_aux_shr.
  - rewrite digits2_pos_iter_xO, fexp_eq, Pos2Z.inj_add. lia.
  - lia.
Qed.

Lemma SFltb_irrefl (x : float) : (x <? x)%float = false.
Proof.
  rewrite FloatAxioms.ltb_spec. unfold SFltb.
  destruct (Prim2SF x) as [s | s | | s m e]; cbn [SFcompare]; try reflexivity.
  - destruct s; reflexivity.
  - rewrite Z.compare_refl, Pos.compare_cont_refl. destruct s; reflexivity.
Qed.

(** A finite value that [Trunc] leaves as it is has no bit below the
    binary point, and conversely. *)
Lemma Trunc_fixed_SF (x : float) (s : bool) (m : positive) (e : Z) :
  Prim2SF x = S754_finite s m e -> Trunc x = x ->
  0 <= e \/ (e < 0 /\ 0 < Zpos m / 2 ^ (- e) /\
             Zpos m = Zpos m / 2 ^ (- e) * 2 ^ (- e)).
Proof.
  intros Hx HT. destruct (Z.ltb_spec e 0) as [He | He]; [right | now left].
  split; [exact He |].
  destruct (trunc_decomp m e He) as (D & Hr & Hn & P).
  destruct (Z.eq_dec (Zpos m / 2 ^ (- e)) 0) as [E0 | E0].
  - pose proof (Trunc_SF_zero x s m e Hx He E0) as HZ.
    rewrite HT, Hx in HZ. discriminate.
  - assert (Hpos : 0 < Zpos m / 2 ^ (- e)) by lia.
    pose proof (Trunc_SF_pos x s m e Hx He Hpos) as HP.
    rewrite HT, Hx in HP. injection HP as HP.
    split; [exact Hpos |]. rewrite HP at 1. rewrite Z2Pos.id; [reflexivity |].
    apply Z.mul_pos_pos; assumption.
Qed.

Lemma Trunc_fixed_of_SF (x : float) (s : bool) (m : positive) (e : Z) :
  Prim2SF x = S754_finite s m e ->
  0 <= e \/ (e < 0 /\ 0 < Zpos m / 2 ^ (- e) /\
             Zpos m = Zpos m / 2 ^ (- e) * 2 ^ (- e)) ->
  Trunc x = x.
Proof.
  intros Hx [He | (He & Hpos & Em)].
  - unfold Trunc. rewrite Hx. destruct (Z.ltb_spec e 0); [lia | reflexivity].
  - apply Prim2SF_inj. rewrite (Trunc_SF_pos x s m e Hx He Hpos), Hx.
    f_equal. apply Pos2Z.inj. rewrite Z2Pos.id; [now symmetry |].
    apply Z.mul_pos_pos; [exact Hpos | apply Z.pow_pos_nonneg; lia].
Qed.

(** The fraction of an integer value is a zero. *)
Lemma zeroBeforeDecimal_integral (f : float) :
  is_finite f = true -> Trunc f = f -> (zeroBeforeDecimal f =? 0)%float = true.
Proof.
  intros Hfin HT. apply is_finite_SF in Hfin.
  assert (Hsub : forall g : float,
             SF_finite (Prim2SF g) ->
             exists t, Prim2SF (g - g)%float = S754_zero t).
  { intros g Hg. rewrite sub_spec.
    destruct (Prim2SF g) as [s | s | | s m e]; try contradiction.
    - exists false. destruct s; reflexivity.
    - exists false. cbv [SF64sub SFsub].
      rewrite cond_Zopp_sub, Z.sub_diag, cond_Zopp_0. reflexivity. }
  assert (Hz : forall (z sg : float) (t : bool),
             Prim2SF z = S754_zero t -> sg = 1%float \/ sg = (-1)%float ->
             (z * sg =? 0)%float = true).
  { intros z sg t Ez Hs. rewrite FloatAxioms.eqb_spec, mul_spec, Ez.
    destruct Hs as [-> | ->]; destruct t; reflexivity. }
  unfold zeroBeforeDecimal.
  destruct (f <? 0)%float eqn:Hneg.
  - assert (Hg : exists s m e, Prim2SF f = S754_finite s m e).
    { rewrite FloatAxioms.ltb_spec in Hneg.
      destruct (Prim2SF f) as [s | s | | s m e]; try contradiction; eauto.
      destruct s; discriminate. }
    destruct Hg as (s & m & e & Hf).
    assert (Hf' : Prim2SF (f * -1)%float = S754_finite (xorb s true) m e).
    { rewrite mul_spec, Hf. exact (mul_unit f s true m e Hf). }
    assert (HT' : Trunc (f * -1)%float = (f * -1)%float).
    { apply (Trunc_fixed_of_SF _ _ m e Hf').
      exact (Trunc_fixed_SF f s m e Hf HT). }
    unfold Floor. rewrite HT', SFltb_irrefl.
    destruct (Hsub (f * -1)%float) as [t Et]; [rewrite Hf'; exact I |].
    apply (Hz _ _ t Et). now right.
  - unfold Floor. rewrite HT, SFltb_irrefl.
    destruct (Hsub f Hfin) as [t Et].
    apply (Hz _ _ t Et). now left.
Qed.

(** X6 (integer values).  A finite float without a fraction, one that
    [math.Trunc] leaves as it is, comes back unchanged for every number of
    places, with no zero place counted; a zero comes back as the positive
    zero. *)
Theorem RoundToNonZeroPlaces_integer (f : float) (places : Z) :
  is_finite f = true -> Trunc f = f ->
  RoundToNonZeroPlaces f places
  = Some (if (f =? 0)%float then 0%float else f, 0).
Proof.
  intros Hfin HT. unfold RoundToNonZeroPlaces.
  destruct (f =? 0)%float; [reflexivity |].
  rewrite (zeroBeforeDecimal_integral f Hfin HT). reflexivity.
Qed.

Lemma RoundToNonZeroPlaces_integer_witness :
  RoundToNonZeroPlaces (-1) 1
  = Some (if (-1 =? 0)%float then 0%float else (-1)%float, 0).
Proof.
  apply (RoundToNonZeroPlaces_integer (-1) 1); reflexivity.
Defined.

(** The fraction of a positive finite value with a negative exponent: the
    subtraction of the integer part loses no bit. *)
Lemma fraction_SF (g : float) (m : positive) (e : Z) :
  Prim2SF g = S754_finite false m e -> e < 0 ->
  (Zpos m mod 2 ^ (- e) = 0 /\
   exists t, Prim2SF (g - Floor g)%float = S754_zero t) \/
  (exists (M : positive) (E : Z),
      Prim2SF (g - Floor g)%float = S754_finite false M E /\ E < 0 /\
      Zpos M * 2 ^ (- e) = (Zpos m mod 2 ^ (- e)) * 2 ^ (- E)).
Proof.
  intros Hg He.
  destruct (trunc_decomp m e He) as (D & Hr & Hn & P).
  assert (HF : Floor g = Trunc g).
  { unfold Floor. rewrite FloatAxioms.ltb_spec, Hg.
    destruct (Z.eq_dec (Zpos m / 2 ^ (- e)) 0) as [E0 | E0].
    - rewrite (Trunc_SF_zero g false m e Hg He E0). reflexivity.
    - assert (Hpos : 0 < Zpos m / 2 ^ (- e)) by lia.
      rewrite (Trunc_SF_pos g false m e Hg He Hpos).
      cbv [SFltb SFcompare]. rewrite Z.compare_refl.
      rewrite Pos.compare_cont_spec. cbn [Pos.switch_Eq].
      change (Pos.compare m ?q) with (Z.compare (Zpos m) (Zpos q)).
      rewrite Z2Pos.id by nia.
      destruct (Z.compare_spec (Zpos m) (Zpos m / 2 ^ (- e) * 2 ^ (- e)));
        [reflexivity | lia | reflexivity]. }
  rewrite HF, sub_spec, Hg.
  destruct (Z.eq_dec (Zpos m / 2 ^ (- e)) 0) as [E0 | E0].
  - rewrite (Trunc_SF_zero g false m e Hg He E0). right.
    exists m, e. split; [reflexivity |]. split; [exact He |].
    rewrite E0 in D. f_equal. lia.
  - assert (Hpos : 0 < Zpos m / 2 ^ (- e)) by lia.
    rewrite (Trunc_SF_pos g false m e Hg He Hpos).
    destruct (normal_of_int_part g false m e Hg He Hpos) as [Hm Hk].
    pose proof (int_part_bounds g false m e Hg He Hpos) as HM.
    cbv [SF64sub SFsub]. rewrite Z.min_id, !shl_align_same. cbn [fst].
    rewrite cond_Zopp_sub, Z2Pos.id by lia.
    replace (Zpos m - Zpos m / 2 ^ (- e) * 2 ^ (- e))
      with (Zpos m mod 2 ^ (- e)) by lia.
    set (r := Zpos m mod 2 ^ (- e)) in *.
    set (n := Zpos m / 2 ^ (- e)) in *. clearbody n r.
    destruct (Z.eq_dec r 0) as [Hr0 | Hr0].
    + left. split; [exact Hr0 |]. rewrite Hr0. exists false. reflexivity.
    + right.
      assert (H52 : 2 ^ (- e) <= 2 ^ 52) by (apply Z.pow_le_mono_r; lia).
      destruct (canon_exists r) as (Mr & er & HMr & Her & EMr & Br); [lia |].
      assert (Hlt : 52 + er < - e) by (apply (Z.pow_lt_mono_r_iff 2); lia).
      rewrite (binary_normalize_int false false r Mr er e)
        by (try assumption; lia).
      exists Mr, (e + er). split; [reflexivity |]. split; [lia |].
      rewrite EMr. rewrite <- !Z.mul_assoc, <- !Z.pow_add_r by lia.
      f_equal. f_equal. lia.
Qed.

Lemma SF2Q_neg_exp (s : bool) (M : positive) (E : Z) (a b : Z) :
  E < 0 -> 0 < b ->
  cond_Zopp s (Zpos M) * b = a * 2 ^ (- E) ->
  (SF2Q (S754_finite s M E) == Qmake a (Z.to_pos b))%Q.
Proof.
  intros HE Hb H. destruct E as [| p | p]; try lia.
  unfold SF2Q, Qeq. cbn [Qnum Qden]. rewrite Pos2Z.inj_pow, Z2Pos.id by lia.
  change (- Zneg p) with (Zpos p) in H. change (Zpos 2) with 2. lia.
Qed.

Lemma eqb_zero_SF (x : float) :
  (x =? 0)%float = true -> exists t, Prim2SF x = S754_zero t.
Proof.
  rewrite FloatAxioms.eqb_spec. change (Prim2SF 0) with (S754_zero false).
  destruct (Prim2SF x) as [s | s | | s m e];
    try destruct s; try discriminate; eauto.
Qed.

(** X7 (zeroBeforeDecimal).  On a finite float the function returns, with
    no rounding at all, the float less its integer part: a finite value
    that stands for the number the argument stands for minus the argument
    truncated toward zero. *)
Theorem zeroBeforeDecimal_fraction (f : float) :
  is_finite f = true ->
  is_finite (zeroBeforeDecimal f) = true /\
  (float_to_Q (zeroBeforeDecimal f)
   == float_to_Q f - inject_Z (SFtrunc_Z (Prim2SF f)))%Q.
Proof.
  intros Hfin. pose proof Hfin as Hfin'. apply is_finite_SF in Hfin'.
  unfold float_to_Q.
  destruct (Prim2SF f) as [s | s | | s m e] eqn:Hf; try contradiction.
  - assert (E : f = zero \/ f = neg_zero).
    { destruct s; [right | left]; apply Prim2SF_inj; rewrite Hf; reflexivity. }
    destruct E as [-> | ->]; split; reflexivity.
  - destruct (Z.ltb_spec e 0) as [He | He].
    + assert (Hneg : (f <? 0)%float = s).
      { rewrite FloatAxioms.ltb_spec, Hf. destruct s; reflexivity. }
      unfold zeroBeforeDecimal. rewrite Hneg.
      set (g := if s then (f * -1)%float else f).
      set (sg := if s then (-1)%float else 1%float).
      assert (Hg : Prim2SF g = S754_finite false m e).
      { unfold g. destruct s; [| exact Hf].
        rewrite mul_spec, Hf. exact (mul_unit f true true m e Hf). }
      assert (Hsg : Prim2SF sg = S754_finite s 4503599627370496 (-52)).
      { unfold sg. destruct s; reflexivity. }
      match goal with
      | |- is_finite ?z = true /\ _ =>
          replace z with ((g - Floor g) * sg)%float
            by (unfold g, sg; destruct s; reflexivity)
      end.
      destruct (trunc_decomp m e He) as (D & Hr & Hn & P).
      cbn [SFtrunc_Z]. destruct (Z.ltb_spec e 0); [| lia].
      rewrite Z.shiftr_div_pow2 by lia.
      destruct (fraction_SF g m e Hg He)
        as [[Hr0 [t Ht]] | (M & E & HM & HE & EM)].
      * assert (Hz : Prim2SF ((g - Floor g) * sg)%float
                     = S754_zero (xorb t s)).
        { rewrite mul_spec, Ht, Hsg. reflexivity. }
        split; [apply is_finite_SF; rewrite Hz; exact I |].
        rewrite Hz. cbn [SF2Q].
        destruct e as [| p | p]; try lia. cbn [SF2Q].
        unfold Qeq, Qminus, Qplus, Qopp, inject_Z. cbn [Qnum Qden].
        rewrite Pos2Z.inj_pow. change (- Zneg p) with (Zpos p) in *.
        change (Zpos 2) with 2.
        set (A := 2 ^ Zpos p) in *. set (n := Zpos m / A) in *.
        clearbody A n.
        destruct s; cbn [cond_Zopp]; nia.
      * assert (Hz : Prim2SF ((g - Floor g) * sg)%float = S754_finite s M E).
        { rewrite mul_spec, HM, Hsg.
          exact (mul_unit (g - Floor g)%float false s M E HM). }
        split; [apply is_finite_SF; rewrite Hz; exact I |].
        rewrite Hz.
        rewrite (SF2Q_neg_exp s M E
                   (cond_Zopp s (Zpos m mod 2 ^ (- e))) (2 ^ (- e)))
          by (try assumption; destruct s; cbn [cond_Zopp]; lia).
        destruct e as [| p | p]; try lia. cbn [SF2Q].
        unfold Qeq, Qminus, Qplus, Qopp, inject_Z. cbn [Qnum Qden].
        change (- Zneg p) with (Zpos p) in *.
        rewrite Pos.mul_1_r, !Pos2Z.inj_pow, Z2Pos.id by lia.
        change (Zpos 2) with 2.
        set (A := 2 ^ Zpos p) in *.
        set (n := Zpos m / A) in *. set (r := Zpos m mod A) in *.
        clearbody A n r.
        destruct s; cbn [cond_Zopp]; nia.
    + assert (HT : Trunc f = f)
        by (apply (Trunc_fixed_of_SF _ _ _ _ Hf); now left).
      destruct (eqb_zero_SF _ (zeroBeforeDecimal_integral f Hfin HT))
        as [t Ht].
      split; [apply is_finite_SF; rewrite Ht; exact I |].
      rewrite Ht. cbn [SF2Q SFtrunc_Z]. destruct (Z.ltb_spec e 0); [lia |].
      rewrite Z.shiftl_mul_pow2 by lia.
      destruct e as [| p | p]; try lia; cbn [SF2Q];
        unfold Qeq, Qminus, Qplus, Qopp, inject_Z; cbn [Qnum Qden];
        destruct s; cbn [cond_Zopp]; lia.
Qed.

Lemma zeroBeforeDecimal_fraction_witness :
  is_finite (zeroBeforeDecimal (-1.123)) = true /\
  (float_to_Q (zeroBeforeDecimal (-1.123))
   == float_to_Q (-1.123) - inject_Z (SFtrunc_Z (Prim2SF (-1.123))))%Q.
Proof. apply (zeroBeforeDecimal_fraction (-1.123)). reflexivity. Defined.

(** ** Round, once more *)

(** The float of an integer magnitude below 2^53 with a sign: a zero, or a
    finite value whose mantissa holds the integer shifted left. *)
Lemma signed_int_SF (s : bool) (z : Z) :
  0 <= z < 2 ^ 53 ->
  (z = 0 /\ binary_normalize prec emax (cond_Zopp s z) 0 s = S754_zero s) \/
  exists (M : positive) (e' : Z),
    -52 <= e' <= 0 /\ Zpos M = z * 2 ^ (- e') /\
    binary_normalize prec emax (cond_Zopp s z) 0 s = S754_finite s M e'.
Proof.
  intros Hz. destruct (Z.eq_dec z 0) as [-> | Hnz].
  - left. split; [reflexivity |]. destruct s; reflexivity.
  - right. destruct (canon_exists z) as (M & e' & HM & He' & EM & _); [lia |].
    exists M, e'. split; [exact He' |]. split; [exact EM |].
    rewrite (binary_normalize_int s s z M e' 0) by (try assumption; lia).
    reflexivity.
Qed.

Lemma round_away_mag_exact (M : positive) (e' z : Z) :
  e' < 0 -> Zpos M = z * 2 ^ (- e') -> round_away_mag M e' = z.
Proof.
  intros He EM. unfold round_away_mag.
  assert (P : 0 < 2 ^ (- e')) by (apply Z.pow_pos_nonneg; lia).
  rewrite EM, Z.mod_mul, Z.div_mul by lia.
  destruct (Z.leb_spec (2 ^ (- e')) (2 * 0)); [lia | reflexivity].
Qed.

Lemma Round_not_finite (x : float) :
  Prim2SF x = S754_nan \/ (exists s, Prim2SF x = S754_infinity s) ->
  Round x = x /\ Round (- x) = (- x)%float.
Proof.
  intros H.
  assert (E : x = nan \/ x = infinity \/ x = neg_infinity).
  { destruct H as [H | [[|] H]];
      [left | right; right | right; left];
      apply Prim2SF_inj; rewrite H; reflexivity. }
  destruct E as [-> | [-> | ->]]; split; vm_compute; reflexivity.
Qed.

Lemma Round_idempotent (x : float) : Round (Round x) = Round x.
Proof.
  destruct (Prim2SF x) as [s | s | | s m e] eqn:Hx.
  - rewrite (Round_SF_integral x) by (rewrite Hx; exact I).
    apply Round_SF_integral. rewrite Hx. exact I.
  - destruct (Round_not_finite x) as [E _]; [right; eauto |]. now rewrite !E.
  - destruct (Round_not_finite x) as [E _]; [now left |]. now rewrite !E.
  - destruct (Z.ltb_spec e 0) as [He | He].
    + pose proof (Round_SF x s m e Hx He) as HR.
      pose proof (round_away_mag_bounds x s m e Hx He) as Hb.
      destruct (signed_int_SF s _ Hb) as [[_ E] | (M & e' & He' & EM & E)];
        rewrite E in HR.
      * apply Round_SF_integral. rewrite HR. exact I.
      * destruct (Z.ltb_spec e' 0) as [Hn | Hn].
        -- apply Prim2SF_inj.
           rewrite (Round_SF (Round x) s M e' HR Hn).
           rewrite (round_away_mag_exact M e' _ Hn EM), E. symmetry. exact HR.
        -- apply Round_SF_integral. rewrite HR. exact Hn.
    + rewrite (Round_SF_integral x) by (rewrite Hx; exact He).
      apply Round_SF_integral. rewrite Hx. exact He.
Qed.

Lemma Round_opp (x : float) : Round (- x) = (- Round x)%float.
Proof.
  pose proof (opp_spec x) as Ho.
  destruct (Prim2SF x) as [s | s | | s m e] eqn:Hx; cbn [SFopp] in Ho.
  - rewrite (Round_SF_integral x) by (rewrite Hx; exact I).
    apply Round_SF_integral. rewrite Ho. exact I.
  - destruct (Round_not_finite x) as [E1 E2]; [right; eauto |].
    now rewrite E1, E2.
  - destruct (Round_not_finite x) as [E1 E2]; [now left |].
    now rewrite E1, E2.
  - destruct (Z.ltb_spec e 0) as [He | He].
    + apply Prim2SF_inj. rewrite opp_spec.
      rewrite (Round_SF (- x)%float (negb s) m e Ho He).
      rewrite (Round_SF x s m e Hx He).
      pose proof (round_away_mag_bounds x s m e Hx He) as Hb.
      destruct (signed_int_SF s _ Hb) as [[E0 E] | (M & e' & He' & EM & E)];
        rewrite E.
      * rewrite E0. destruct s; reflexivity.
      * destruct (canon_exists (round_away_mag m e))
          as (M2 & e2 & HM2 & He2 & EM2 & _).
        { destruct (Z.eq_dec (round_away_mag m e) 0) as [Z0 | Z0];
            [rewrite Z0 in EM; lia | lia]. }
        rewrite (binary_normalize_int (negb s) (negb s) _ M2 e2 0)
          by (try assumption; lia).
        rewrite (binary_normalize_int s s _ M2 e2 0) in E
          by (try assumption; lia).
        injection E as <- <-. reflexivity.
    + rewrite (Round_SF_integral x) by (rewrite Hx; exact He).
      apply Round_SF_integral. rewrite Ho. exact He.
Qed.

(** What [Round] returns for a finite value has no fraction. *)
Lemma Trunc_Round (p : float) :
  is_finite p = true -> Trunc (Round p) = Round p.
Proof.
  intros Hf. apply is_finite_SF in Hf.
  destruct (Prim2SF p) as [s | s | | s m e] eqn:Hp; try contradiction.
  - rewrite (Round_SF_integral p) by (rewrite Hp; exact I).
    unfold Trunc. rewrite Hp. reflexivity.
  - destruct (Z.ltb_spec e 0) as [He | He].
    + pose proof (Round_SF p s m e Hp He) as HR.
      pose proof (round_away_mag_bounds p s m e Hp He) as Hb.
      destruct (signed_int_SF s _ Hb) as [[_ E] | (M & e' & He' & EM & E)];
        rewrite E in HR.
      * unfold Trunc. rewrite HR. reflexivity.
      * apply (Trunc_fixed_of_SF _ _ _ _ HR).
        destruct (Z.eq_dec e' 0) as [-> | Hne]; [left; lia | right].
        assert (P : 0 < 2 ^ (- e')) by (apply Z.pow_pos_nonneg; lia).
        rewrite EM, Z.div_mul by lia. repeat split; nia.
    + rewrite (Round_SF_integral p) by (rewrite Hp; exact He).
      apply (Trunc_fixed_of_SF _ _ _ _ Hp). now left.
Qed.

(** X8 (Round).  On every float, NaN and the infinities included, rounding
    what [Round] has returned changes nothing, and the rounding of the
    opposite is the opposite of the rounding: the two signs are treated
    alike. *)
Theorem Round_idempotent_odd (x : float) :
  Round (Round x) = Round x /\ Round (- x) = (- Round x)%float.
Proof. split; [apply Round_idempotent | apply Round_opp]. Qed.

(** ** The order of binary64 values and MinMax *)

Lemma finite_bounds (x : float) (s : bool) (m : positive) (e : Z) :
  Prim2SF x = S754_finite s m e ->
  0 < Zpos m < 9007199254740992 /\ -1074 <= e <= 971.
Proof.
  intros Hx. destruct (Prim2SF_finite_valid x s m e Hx) as [V He].
  pose proof (digits2_pos_bounds m) as [_ Hd].
  assert (Hd53 : Zpos (digits2_pos m) <= 53) by lia.
  assert (2 ^ Zpos (digits2_pos m) <= 2 ^ 53) by (apply Z.pow_le_mono_r; lia).
  change (2 ^ 53) with 9007199254740992 in *. lia.
Qed.

(** The comparison of two floats that are not NaN is the comparison of
    their ranks. *)
Lemma SFcompare_rank (x y : float) :
  is_nan x = false -> is_nan y = false ->
  SFcompare (Prim2SF x) (Prim2SF y) = Some (float_rank x ?= float_rank y).
Proof.
  intros Hx Hy. apply not_nan_spec in Hx, Hy. unfold float_rank.
  destruct (Prim2SF x) as [s | s | | s m e] eqn:Ex; try congruence;
  destruct (Prim2SF y) as [t | t | | t n f] eqn:Ey; try congruence;
    try (apply finite_bounds in Ex); try (apply finite_bounds in Ey);
    cbn [SFcompare SF_rank]; change (2 ^ 53) with 9007199254740992;
    try destruct s; try destruct t; cbn [cond_Zopp]; f_equal; symmetry;
    try (apply Z.compare_eq_iff; lia);
    try (apply Z.compare_lt_iff; lia);
    try (apply Z.compare_gt_iff; lia).
  - destruct (Z.compare_spec e f) as [E | E | E].
    + subst f. rewrite Pos.compare_cont_spec. cbn [Pos.switch_Eq].
      change (Pos.compare m n) with (Z.compare (Zpos m) (Zpos n)).
      destruct (Z.compare_spec (Zpos m) (Zpos n)); cbn [CompOpp];
        [apply Z.compare_eq_iff | apply Z.compare_gt_iff
         | apply Z.compare_lt_iff]; lia.
    + apply Z.compare_gt_iff; lia.
    + apply Z.compare_lt_iff; lia.
  - destruct (Z.compare_spec e f) as [E | E | E].
    + subst f. rewrite Pos.compare_cont_spec. cbn [Pos.switch_Eq].
      change (Pos.compare m n) with (Z.compare (Zpos m) (Zpos n)).
      destruct (Z.compare_spec (Zpos m) (Zpos n));
        [apply Z.compare_eq_iff | apply Z.compare_lt_iff
         | apply Z.compare_gt_iff]; lia.
    + apply Z.compare_lt_iff; lia.
    + apply Z.compare_gt_iff; lia.
Qed.

Lemma ltb_rank (x y : float) :
  is_nan x = false -> is_nan y = false ->
  (x <? y)%float = (float_rank x <? float_rank y).
Proof.
  intros Hx Hy. rewrite FloatAxioms.ltb_spec. unfold SFltb.
  rewrite (SFcompare_rank x y Hx Hy). unfold Z.ltb.
  destruct (float_rank x ?= float_rank y); reflexivity.
Qed.

Lemma leb_rank (x y : float) :
  is_nan x = false -> is_nan y = false ->
  (x <=? y)%float = (float_rank x <=? float_rank y).
Proof.
  intros Hx Hy. rewrite FloatAxioms.leb_spec. unfold SFleb.
  rewrite (SFcompare_rank x y Hx Hy). unfold Z.leb.
  destruct (float_rank x ?= float_rank y); reflexivity.
Qed.

Lemma finite_not_nan (x : float) : is_finite x = true -> is_nan x = false.
Proof.
  unfold is_finite. destruct (is_nan x); [discriminate | reflexivity].
Qed.

Lemma MinMax_fold (l : list float) (a b : float) :
  fold_left MinMax_step l (a, b)
  = (fold_left (fun mn v => if (v <? mn)%float then v else mn) l a,
     fold_left (fun mx v => if (mx <? v)%float then v else mx) l b).
Proof.
  revert a b. induction l as [| v l IH]; intros a b; [reflexivity |].
  cbn [fold_left MinMax_step]. apply IH.
Qed.

Lemma fold_fmin_spec (l : list float) :
  forall a : float,
    is_nan a = false -> Forall (fun v => is_nan v = false) l ->
    let m := fold_left (fun mn v => if (v <? mn)%float then v else mn) l a in
    is_nan m = false /\ float_rank m <= float_rank a /\
    Forall (fun v => float_rank m <= float_rank v) l /\ (m = a \/ In m l).
Proof.
  induction l as [| v l IH]; intros a Ha Hl; cbn [fold_left].
  - repeat split; [exact Ha | lia | constructor | now left].
  - pose proof (Forall_inv Hl) as Hv. pose proof (Forall_inv_tail Hl) as Hl'.
    cbv beta in Hv. rewrite (ltb_rank v a Hv Ha).
    destruct (Z.ltb_spec (float_rank v) (float_rank a)) as [H | H].
    + destruct (IH v Hv Hl') as (Hn & Hle & Hall & Hin). cbv zeta in *.
      repeat split; [exact Hn | lia | constructor; [lia | exact Hall] |].
      right. destruct Hin as [-> | Hin]; [now left | now right].
    + destruct (IH a Ha Hl') as (Hn & Hle & Hall & Hin). cbv zeta in *.
      repeat split; [exact Hn | lia | constructor; [lia | exact Hall] |].
      destruct Hin as [-> | Hin]; [now left | right; now right].
Qed.

Lemma fold_fmax_spec (l : list float) :
  forall b : float,
    is_nan b = false -> Forall (fun v => is_nan v = false) l ->
    let m := fold_left (fun mx v => if (mx <? v)%float then v else mx) l b in
    is_nan m = false /\ float_rank b <= float_rank m /\
    Forall (fun v => float_rank v <= float_rank m) l /\ (m = b \/ In m l).
Proof.
  induction l as [| v l IH]; intros b Hb Hl; cbn [fold_left].
  - repeat split; [exact Hb | lia | constructor | now left].
  - pose proof (Forall_inv Hl) as Hv. pose proof (Forall_inv_tail Hl) as Hl'.
    cbv beta in Hv. rewrite (ltb_rank b v Hb Hv).
    destruct (Z.ltb_spec (float_rank b) (float_rank v)) as [H | H].
    + destruct (IH v Hv Hl') as (Hn & Hle & Hall & Hin). cbv zeta in *.
      repeat split; [exact Hn | lia | constructor; [lia | exact Hall] |].
      right. destruct Hin as [-> | Hin]; [now left | now right].
    + destruct (IH b Hb Hl') as (Hn & Hle & Hall & Hin). cbv zeta in *.
      repeat split; [exact Hn | lia | constructor; [lia | exact Hall] |].
      destruct Hin as [-> | Hin]; [now left | right; now right].
Qed.

Lemma rank_MaxFloat64 : float_rank MaxFloat64 = 2047 * 9007199254740992 - 1.
Proof. reflexivity. Qed.

Lemma rank_neg_MaxFloat64 :
  float_rank (-1 * MaxFloat64)%float = - (2047 * 9007199254740992 - 1).
Proof. reflexivity. Qed.

Lemma finite_rank_bounds (x : float) :
  is_finite x = true ->
  - (2047 * 9007199254740992 - 1) <= float_rank x
  <= 2047 * 9007199254740992 - 1.
Proof.
  intros H. apply is_finite_SF in H. unfold float_rank.
  destruct (Prim2SF x) as [s | s | | s m e] eqn:Ex; try contradiction.
  - cbn [SF_rank]. lia.
  - apply finite_bounds in Ex. cbn [SF_rank].
    change (2 ^ 53) with 9007199254740992. destruct s; cbn [cond_Zopp]; lia.
Qed.

(** The finite float of the highest rank is [MaxFloat64], and the one of
    the lowest rank its opposite. *)
Lemma rank_top (x : float) :
  is_finite x = true -> float_rank x = 2047 * 9007199254740992 - 1 ->
  x = MaxFloat64.
Proof.
  intros H E. apply is_finite_SF in H. unfold float_rank in E.
  apply Prim2SF_inj.
  destruct (Prim2SF x) as [s | s | | s m e] eqn:Ex; try contradiction.
  - cbn [SF_rank] in E. lia.
  - pose proof (finite_bounds x s m e Ex) as B. cbn [SF_rank] in E.
    change (2 ^ 53) with 9007199254740992 in E.
    destruct s; cbn [cond_Zopp] in E; [lia |].
    assert (e = 971) by lia. subst e.
    assert (Em : Zpos m = 9007199254740991) by lia.
    injection Em as ->. reflexivity.
Qed.

Lemma rank_bottom (x : float) :
  is_finite x = true -> float_rank x = - (2047 * 9007199254740992 - 1) ->
  x = (-1 * MaxFloat64)%float.
Proof.
  intros H E. apply is_finite_SF in H. unfold float_rank in E.
  apply Prim2SF_inj.
  destruct (Prim2SF x) as [s | s | | s m e] eqn:Ex; try contradiction.
  - cbn [SF_rank] in E. lia.
  - pose proof (finite_bounds x s m e Ex) as B. cbn [SF_rank] in E.
    change (2 ^ 53) with 9007199254740992 in E.
    destruct s; cbn [cond_Zopp] in E; [| lia].
    assert (e = 971) by lia. subst e.
    assert (Em : Zpos m = 9007199254740991) by lia.
    injection Em as ->. reflexivity.
Qed.

(** X9 (MinMax on finite values).  On a list that is not empty and holds
    finite floats only, [MinMax] returns two elements of the list, the
    first at most and the second at least every element. *)
Theorem MinMax_extremes (values : list float) :
  values <> [] ->
  Forall (fun v => is_finite v = true) values ->
  In (fst (MinMax values)) values /\
  In (snd (MinMax values)) values /\
  Forall (fun v => (fst (MinMax values) <=? v)%float = true /\
                   (v <=? snd (MinMax values))%float = true) values.
Proof.
  intros Hne Hfin.
  assert (Hnan : Forall (fun v => is_nan v = false) values).
  { rewrite Forall_forall in *. intros v Hv. apply finite_not_nan. auto. }
  destruct values as [| v l]; [congruence |].
  unfold MinMax. rewrite MinMax_fold. cbn [fst snd].
  destruct (fold_fmin_spec (v :: l) MaxFloat64 eq_refl Hnan)
    as (Hn1 & Hle1 & Hall1 & Hin1).
  destruct (fold_fmax_spec (v :: l) (-1 * MaxFloat64)%float eq_refl Hnan)
    as (Hn2 & Hle2 & Hall2 & Hin2).
  cbv zeta in *.
  set (mn := fold_left _ (v :: l) MaxFloat64) in *.
  set (mx := fold_left _ (v :: l) (-1 * MaxFloat64)%float) in *.
  pose proof (Forall_inv Hfin) as Hv. cbv beta in Hv.
  pose proof (finite_rank_bounds v Hv) as Bv.
  pose proof (Forall_inv Hall1) as Hv1. pose proof (Forall_inv Hall2) as Hv2.
  cbv beta in Hv1, Hv2.
  rewrite rank_MaxFloat64 in Hle1. rewrite rank_neg_MaxFloat64 in Hle2.
  split; [| split].
  - destruct Hin1 as [E | Hin]; [| exact Hin]. left.
    rewrite E in *. rewrite rank_MaxFloat64 in Hv1.
    apply rank_top; [exact Hv | lia].
  - destruct Hin2 as [E | Hin]; [| exact Hin]. left.
    rewrite E in *. rewrite rank_neg_MaxFloat64 in Hv2.
    apply rank_bottom; [exact Hv | lia].
  - rewrite Forall_forall in *. intros x Hx.
    specialize (Hall1 x Hx). specialize (Hall2 x Hx). specialize (Hnan x Hx).
    cbv beta in *.
    rewrite (leb_rank mn x Hn1 Hnan), (leb_rank x mx Hnan Hn2).
    split; apply Z.leb_le; lia.
Qed.

Lemma MinMax_extremes_witness :
  In (fst (MinMax [1.1; 0; 1.3; -11.3; 22.5]%float))
     [1.1; 0; 1.3; -11.3; 22.5]%float /\
  In (snd (MinMax [1.1; 0; 1.3; -11.3; 22.5]%float))
     [1.1; 0; 1.3; -11.3; 22.5]%float /\
  Forall (fun v =>
            (fst (MinMax [1.1; 0; 1.3; -11.3; 22.5]%float) <=? v)%float = true /\
            (v <=? snd (MinMax [1.1; 0; 1.3; -11.3; 22.5]%float))%float = true)
    [1.1; 0; 1.3; -11.3; 22.5]%float.
Proof.
  apply (MinMax_extremes [1.1; 0; 1.3; -11.3; 22.5]%float).
  - discriminate.
  - repeat constructor.
Defined.

(** X10 (MinMaxInts between the sentinels).  On a list that is not empty
    and whose values all lie in [-MaxInt32, MaxInt32], [MinMaxInts] returns
    two elements of the list, the first at most and the second at least
    every element, and the first at most the second. *)
Theorem MinMaxInts_extremes (values : list Z) :
  values <> [] ->
  Forall (fun v => - GoInt.MaxInt32 <= v <= GoInt.MaxInt32) values ->
  In (fst (MinMaxInts values)) values /\
  In (snd (MinMaxInts values)) values /\
  Forall (fun v => fst (MinMaxInts values) <= v <= snd (MinMaxInts values))
         values /\
  fst (MinMaxInts values) <= snd (MinMaxInts values).
Proof.
  intros Hne Hall.
  destruct (MinMaxInts_within_sentinels values Hne Hall) as (H1 & H2 & H3).
  repeat split; try assumption.
  rewrite Forall_forall in H3. specialize (H3 _ H1). cbv beta in H3. lia.
Qed.

Lemma MinMaxInts_extremes_witness :
  In (fst (MinMaxInts [1; 0; 3; -11; 22])) [1; 0; 3; -11; 22] /\
  In (snd (MinMaxInts [1; 0; 3; -11; 22])) [1; 0; 3; -11; 22] /\
  Forall (fun v => fst (MinMaxInts [1; 0; 3; -11; 22]) <= v
                   <= snd (MinMaxInts [1; 0; 3; -11; 22]))
         [1; 0; 3; -11; 22] /\
  fst (MinMaxInts [1; 0; 3; -11; 22]) <= snd (MinMaxInts [1; 0; 3; -11; 22]).
Proof.
  apply (MinMaxInts_extremes [1; 0; 3; -11; 22]).
  - discriminate.
  - repeat constructor; unfold GoInt.MaxInt32; lia.
Defined.

(** ** Degrees and radians *)

Lemma degrees_one_turn_checked :
  forallb (fun n : nat =>
             let d := Z.of_nat n - 360 in
             RadiansToDegrees (DegreesToRadians d)
             =? (if d <? 0 then d + 360 else d))
          (seq 0 721) = true.
Proof. vm_compute. reflexivity. Qed.

(** Within one turn on either side of zero the conversion to radians and
    back gives the degrees again, a negative angle as its positive
    equivalent. *)
Lemma degrees_one_turn (d : Z) :
  -360 <= d <= 360 ->
  RadiansToDegrees (DegreesToRadians d) = if d <? 0 then d + 360 else d.
Proof.
  intros H. pose proof degrees_one_turn_checked as C.
  rewrite forallb_forall in C.
  specialize (C (Z.to_nat (d + 360))). cbv zeta in C.
  rewrite Z2Nat.id in C by lia.
  replace (d + 360 - 360) with d in C by lia.
  apply Z.eqb_eq, C. apply in_seq. lia.
Qed.

(** X11 (degrees to radians and back).  For every angle in degrees from
    -360 up, [RadiansToDegrees] of [DegreesToRadians] is the angle itself
    when it lies in [0, 360], and otherwise the angle modulo 360, in
    [0, 360). *)
Theorem degrees_round_trip (d : Z) :
  -360 <= d <= GoInt.MaxInt64 ->
  RadiansToDegrees (DegreesToRadians d)
  = if (0 <=? d) && (d <=? 360) then d else d mod 360.
Proof.
  intros H.
  destruct (Z.leb_spec 0 d) as [H0 | H0];
    destruct (Z.leb_spec d 360) as [H1 | H1]; cbn [andb].
  - rewrite degrees_one_turn by lia.
    destruct (Z.ltb_spec d 0); [lia | reflexivity].
  - assert (E : DegreesToRadians d = DegreesToRadians (Z.rem d 360)).
    { unfold DegreesToRadians at 1 2.
      destruct (Z.ltb_spec 360 d); [| lia].
      pose proof (Z.rem_bound_pos d 360).
      destruct (Z.ltb_spec 360 (Z.rem d 360)); [lia | reflexivity]. }
    rewrite E. pose proof (Z.rem_bound_pos d 360).
    rewrite degrees_one_turn by lia.
    destruct (Z.ltb_spec (Z.rem d 360) 0); [lia |].
    apply Z.rem_mod_nonneg; lia.
  - rewrite degrees_one_turn by lia. destruct (Z.ltb_spec d 0); [| lia].
    apply (Z.mod_unique d 360 (-1)); lia.
  - lia.
Qed.

Lemma degrees_round_trip_witness :
  RadiansToDegrees (DegreesToRadians 725)
  = if (0 <=? 725) && (725 <=? 360) then 725 else 725 mod 360.
Proof. apply (degrees_round_trip 725). unfold GoInt.MaxInt64. lia. Defined.

(** ** The floats of integers *)

Lemma valid_normal (s : bool) (M : positive) (e : Z) :
  2 ^ 52 <= Zpos M < 2 ^ 53 -> -1074 <= e <= 971 ->
  valid_binary (S754_finite s M e) = true.
Proof.
  intros HM He.
  unfold SpecFloat.valid_binary, bounded, canonical_mantissa.
  apply andb_true_iff. split.
  - apply Z.eqb_eq. rewrite fexp_eq, (digits2_pos_unique M 53); [lia |].
    change (53 - 1) with 52. exact HM.
  - apply Z.leb_le. change (emax - prec) with 971. lia.
Qed.

(** The float of a nonzero integer below 2^53 in magnitude holds it
    exactly. *)
Lemma of_int_SF (z : Z) :
  0 < Z.abs z < 2 ^ 53 ->
  exists (M : positive) (e' : Z),
    2 ^ 52 <= Zpos M < 2 ^ 53 /\ -52 <= e' <= 0 /\
    Zpos M = Z.abs z * 2 ^ (- e') /\
    2 ^ (52 + e') <= Z.abs z < 2 ^ (53 + e') /\
    Prim2SF (of_int z) = S754_finite (z <? 0) M e'.
Proof.
  intros Hz.
  destruct (canon_exists (Z.abs z) Hz) as (M & e' & HM & He' & EM & B).
  exists M, e'. repeat split; try assumption; try lia.
  unfold of_int.
  replace z with (cond_Zopp (z <? 0) (Z.abs z)) at 1
    by (destruct (Z.ltb_spec z 0); cbn [cond_Zopp]; lia).
  rewrite (binary_normalize_int (z <? 0) false (Z.abs z) M e' 0)
    by (try assumption; lia).
  apply Prim2SF_SF2Prim. apply valid_normal; [exact HM | lia].
Qed.

Lemma of_int_integral (z : Z) :
  Z.abs z < 2 ^ 53 ->
  is_finite (of_int z) = true /\ Trunc (of_int z) = of_int z /\
  (of_int z <? 0)%float = (z <? 0) /\
  ((of_int z =? 0)%float = true -> of_int z = 0%float).
Proof.
  intros Hz. destruct (Z.eq_dec z 0) as [-> | Hnz].
  - repeat split; reflexivity.
  - destruct (of_int_SF z) as (M & e' & HM & He' & EM & _ & E); [lia |].
    split; [apply is_finite_SF; rewrite E; exact I |]. split; [| split].
    + apply (Trunc_fixed_of_SF _ _ _ _ E).
      destruct (Z.eq_dec e' 0) as [-> | Hne]; [left; lia | right].
      assert (P : 0 < 2 ^ (- e')) by (apply Z.pow_pos_nonneg; lia).
      rewrite EM, Z.div_mul by lia. repeat split; lia.
    + rewrite FloatAxioms.ltb_spec, E.
      change (Prim2SF 0) with (S754_zero false).
      destruct (z <? 0); reflexivity.
    + rewrite FloatAxioms.eqb_spec, E.
      change (Prim2SF 0) with (S754_zero false).
      destruct (z <? 0); discriminate.
Qed.

Lemma rank_of_int_pos (z : Z) :
  0 < Z.abs z < 2 ^ 53 ->
  exists (M e' : Z),
    2 ^ 52 <= M < 2 ^ 53 /\ -52 <= e' <= 0 /\ M = Z.abs z * 2 ^ (- e') /\
    2 ^ (52 + e') <= Z.abs z < 2 ^ (53 + e') /\
    float_rank (of_int z)
    = cond_Zopp (z <? 0) ((e' + 1075) * 9007199254740992 + M).
Proof.
  intros Hz. destruct (of_int_SF z Hz) as (M & e' & HM & He' & EM & B & E).
  exists (Zpos M), e'. repeat split; try assumption; try lia.
  unfold float_rank. rewrite E. reflexivity.
Qed.

Lemma rank_of_int_mono_pos (v w : Z) :
  0 < v -> v < w -> w < 2 ^ 53 ->
  0 < float_rank (of_int v) < float_rank (of_int w).
Proof.
  intros Hv Hvw Hw.
  destruct (rank_of_int_pos v) as (M1 & e1 & HM1 & He1 & EM1 & B1 & R1);
    [lia |].
  destruct (rank_of_int_pos w) as (M2 & e2 & HM2 & He2 & EM2 & B2 & R2);
    [lia |].
  rewrite R1, R2.
  destruct (Z.ltb_spec v 0); [lia |]. destruct (Z.ltb_spec w 0); [lia |].
  cbn [cond_Zopp]. rewrite Z.abs_eq in * by lia.
  change (2 ^ 52) with 4503599627370496 in *.
  change (2 ^ 53) with 9007199254740992 in *.
  assert (Hle : e1 <= e2).
  { destruct (Z_le_gt_dec e1 e2) as [L | G]; [exact L | exfalso].
    assert (2 ^ (53 + e2) <= 2 ^ (52 + e1)) by (apply Z.pow_le_mono_r; lia).
    lia. }
  destruct (Z.eq_dec e1 e2) as [E | NE].
  - subst e2. assert (P : 0 < 2 ^ (- e1)) by (apply Z.pow_pos_nonneg; lia).
    assert (M1 < M2) by nia. lia.
  - lia.
Qed.

Lemma rank_of_int_opp (z : Z) :
  Z.abs z < 2 ^ 53 -> float_rank (of_int (- z)) = - float_rank (of_int z).
Proof.
  intros Hz. destruct (Z.eq_dec z 0) as [-> | Hnz]; [reflexivity |].
  destruct (of_int_SF z) as (M1 & e1 & HM1 & He1 & EM1 & B1 & R1); [lia |].
  destruct (of_int_SF (- z)) as (M2 & e2 & HM2 & He2 & EM2 & B2 & R2); [lia |].
  rewrite Z.abs_opp in *.
  assert (E : e1 = e2).
  { destruct (Z.lt_trichotomy e1 e2) as [L | [E | G]];
      [exfalso | exact E | exfalso].
    - assert (2 ^ (53 + e1) <= 2 ^ (52 + e2)) by (apply Z.pow_le_mono_r; lia).
      lia.
    - assert (2 ^ (53 + e2) <= 2 ^ (52 + e1)) by (apply Z.pow_le_mono_r; lia).
      lia. }
  subst e2. assert (EM : Zpos M1 = Zpos M2) by lia. injection EM as ->.
  unfold float_rank. rewrite R1, R2. cbn [SF_rank].
  destruct (Z.ltb_spec z 0), (Z.ltb_spec (- z) 0); cbn [cond_Zopp]; lia.
Qed.

Lemma rank_of_int_mono (v w : Z) :
  Z.abs v < 2 ^ 53 -> Z.abs w < 2 ^ 53 -> v < w ->
  float_rank (of_int v) < float_rank (of_int w).
Proof.
  intros Hv Hw Hvw.
  assert (Z0 : float_rank (of_int 0) = 0) by reflexivity.
  assert (Pos : forall z, 0 < z < 2 ^ 53 -> 0 < float_rank (of_int z)).
  { intros z Hz. destruct (Z.eq_dec z 1) as [-> | NE]; [reflexivity |].
    pose proof (rank_of_int_mono_pos 1 z ltac:(lia) ltac:(lia) ltac:(lia)).
    lia. }
  destruct (Z.lt_trichotomy v 0) as [Nv | [-> | Pv]];
    destruct (Z.lt_trichotomy w 0) as [Nw | [-> | Pw]]; try lia.
  - pose proof (rank_of_int_mono_pos (- w) (- v)
                  ltac:(lia) ltac:(lia) ltac:(lia)) as H.
    rewrite !rank_of_int_opp in H by lia. lia.
  - rewrite Z0. pose proof (Pos (- v) ltac:(lia)) as H.
    rewrite rank_of_int_opp in H by lia. lia.
  - pose proof (Pos (- v) ltac:(lia)) as H.
    rewrite rank_of_int_opp in H by lia.
    pose proof (Pos w ltac:(lia)). lia.
  - rewrite Z0. apply Pos. lia.
  - pose proof (rank_of_int_mono_pos v w ltac:(lia) ltac:(lia) ltac:(lia)).
    lia.
Qed.

(** Below 2^53 the conversion to a float keeps the order of the integers. *)
Lemma of_int_ltb (v w : Z) :
  Z.abs v < 2 ^ 53 -> Z.abs w < 2 ^ 53 ->
  (of_int v <? of_int w)%float = (v <? w).
Proof.
  intros Hv Hw.
  destruct (of_int_integral v Hv) as (Fv & _).
  destruct (of_int_integral w Hw) as (Fw & _).
  rewrite (ltb_rank _ _ (finite_not_nan _ Fv) (finite_not_nan _ Fw)).
  destruct (Z.ltb_spec v w) as [L | G].
  - apply Z.ltb_lt. apply rank_of_int_mono; assumption.
  - apply Z.ltb_ge. destruct (Z.eq_dec v w) as [-> | NE]; [lia |].
    pose proof (rank_of_int_mono w v Hw Hv ltac:(lia)). lia.
Qed.

(** ** The scales of the axes *)

Section ScaleProperties.

Import axes.

Lemma positionToY_in (height p : Z) :
  GoInt.MinInt64 < height <= GoInt.MaxInt64 -> 0 <= p < height ->
  positionToY p height = Ok (height - 1 - p).
Proof.
  intros Hh Hp. unfold positionToY.
  rewrite sub_in_range by int_range.
  destruct (Z.ltb_spec p 0); [lia |].
  destruct (Z.ltb_spec (height - 1) p); [lia |]. cbn [orb].
  rewrite sub_in_range by int_range. reflexivity.
Qed.

Lemma positionToY_out (height p : Z) :
  GoInt.MinInt64 < height <= GoInt.MaxInt64 -> ~ 0 <= p < height ->
  positionToY p height = Err (ErrPosition p 0 (height - 1)).
Proof.
  intros Hh Hp. unfold positionToY.
  rewrite sub_in_range by int_range.
  destruct (Z.ltb_spec p 0); [reflexivity |].
  destruct (Z.ltb_spec (height - 1) p); [reflexivity | lia].
Qed.

Lemma yToPosition_in (height y : Z) :
  GoInt.MinInt64 < height <= GoInt.MaxInt64 -> 0 <= y < height ->
  yToPosition y height = Ok (height - 1 - y).
Proof.
  intros Hh Hp. unfold yToPosition.
  rewrite sub_in_range by int_range.
  destruct (Z.ltb_spec y 0); [lia |].
  destruct (Z.ltb_spec (height - 1) y); [lia |]. cbn [orb].
  unfold GoInt.add, GoInt.mul.
  rewrite (wrap_in_range (-1 * y)) by int_range.
  rewrite wrap_in_range by int_range. f_equal. lia.
Qed.

Lemma yToPosition_out (height y : Z) :
  GoInt.MinInt64 < height <= GoInt.MaxInt64 -> ~ 0 <= y < height ->
  yToPosition y height = Err (ErrYCoordinate y 0 (height - 1)).
Proof.
  intros Hh Hp. unfold yToPosition.
  rewrite sub_in_range by int_range.
  destruct (Z.ltb_spec y 0); [reflexivity |].
  destruct (Z.ltb_spec (height - 1) y); [reflexivity | lia].
Qed.

(** X12 (positionToY and yToPosition).  Within a height, the two functions
    are the same reflection, the position p and the coordinate
    height - 1 - p, and each undoes the other; outside of [0, height) each
    returns its own error and no coordinate. *)
Theorem positionToY_yToPosition_inverse (height p : Z) :
  GoInt.MinInt64 < height <= GoInt.MaxInt64 ->
  (0 <= p < height ->
   positionToY p height = Ok (height - 1 - p) /\
   yToPosition p height = Ok (height - 1 - p) /\
   bind (positionToY p height) (fun y => yToPosition y height) = Ok p /\
   bind (yToPosition p height) (fun q => positionToY q height) = Ok p) /\
  (~ 0 <= p < height ->
   positionToY p height = Err (ErrPosition p 0 (height - 1)) /\
   yToPosition p height = Err (ErrYCoordinate p 0 (height - 1))).
Proof.
  intros Hh. split.
  - intros Hp.
    rewrite (positionToY_in height p Hh Hp), (yToPosition_in height p Hh Hp).
    cbn [bind].
    rewrite (positionToY_in height (height - 1 - p)) by (assumption || lia).
    rewrite (yToPosition_in height (height - 1 - p)) by (assumption || lia).
    repeat split; f_equal; lia.
  - intros Hp. split;
      [apply positionToY_out | apply yToPosition_out]; assumption.
Qed.

Lemma positionToY_yToPosition_inverse_witness :
  (0 <= 0 < 3 ->
   positionToY 0 3 = Ok (3 - 1 - 0) /\
   yToPosition 0 3 = Ok (3 - 1 - 0) /\
   bind (positionToY 0 3) (fun y => yToPosition y 3) = Ok 0 /\
   bind (yToPosition 0 3) (fun q => positionToY q 3) = Ok 0) /\
  (~ 0 <= 0 < 3 ->
   positionToY 0 3 = Err (ErrPosition 0 0 (3 - 1)) /\
   yToPosition 0 3 = Err (ErrYCoordinate 0 0 (3 - 1))).
Proof.
  apply (positionToY_yToPosition_inverse 3 0).
  unfold GoInt.MinInt64, GoInt.MaxInt64. lia.
Defined.

(** What [NewValue] returns: the float, its rounding and the precision. *)
Lemma NewValue_ok (v : float) (n : Z) :
  exists (r : float) (z : Z),
    RoundToNonZeroPlaces v n = Some (r, z) /\
    NewValue v n = Ok (mkValue v r n).
Proof.
  destruct (RoundToNonZeroPlaces_total v n) as (r & z & E).
  exists r, z. split; [exact E |]. unfold NewValue. rewrite E. reflexivity.
Qed.

(** The value of a finite float without a fraction is rounded to itself. *)
Lemma NewValue_integral (v : float) (n : Z) :
  is_finite v = true -> Trunc v = v ->
  NewValue v n = Ok (mkValue v (if (v =? 0)%float then 0%float else v) n).
Proof.
  intros Hf HT. unfold NewValue, RoundToNonZeroPlaces.
  destruct (v =? 0)%float; [reflexivity |].
  rewrite (zeroBeforeDecimal_integral v Hf HT). reflexivity.
Qed.

Lemma NewValue_of_int (z n : Z) :
  Z.abs z < 2 ^ 53 ->
  NewValue (of_int z) n = Ok (mkValue (of_int z) (of_int z) n).
Proof.
  intros Hz. destruct (of_int_integral z Hz) as (Hf & HT & _ & H0).
  rewrite (NewValue_integral _ n Hf HT).
  destruct (of_int z =? 0)%float eqn:E; [| reflexivity].
  rewrite (H0 eq_refl). reflexivity.
Qed.

(** X13 (NewYScale, all outcomes).  [NewYScale] returns one of three
    things.  An error for max below min, which comes first; else an error
    for a graph height below 1; else a scale, never anything else, which
    keeps the graph height, has as many pixel rows as the height times the
    rows of a cell, bounds that are the arguments with zero brought in, a
    step that is their difference divided by the number of rows less one,
    and three values that carry the precision asked for and the rounding
    [RoundToNonZeroPlaces] gives them. *)
Theorem NewYScale_outcome (RowMult : Z) (min max : float)
  (graphHeight n : Z) :
  match NewYScale RowMult min max graphHeight n with
  | Ok ys =>
      (max <? min)%float = false /\ 1 <= graphHeight /\
      GraphHeight ys = graphHeight /\
      brailleHeight ys = GoInt.mul graphHeight RowMult /\
      Value_ (Min ys) = (if (0 <? min)%float then 0%float else min) /\
      Value_ (Max ys) = (if (max <? 0)%float then 0%float else max) /\
      Value_ (Step ys)
      = ((Value_ (Max ys) - Value_ (Min ys))
         / of_int (GoInt.sub (brailleHeight ys) 1))%float /\
      Forall (fun v => NonZeroDecimals v = n /\
                       exists z, RoundToNonZeroPlaces (Value_ v) n
                                 = Some (Rounded v, z))
             [Min ys; Max ys; Step ys]
  | Err e =>
      e = (if (max <? min)%float then ErrMaxLessThanMin max min
           else ErrGraphHeight 1 graphHeight) /\
      ((max <? min)%float = true \/ graphHeight < 1)
  | OutOfFuel => False
  end.
Proof.
  unfold NewYScale.
  destruct (max <? min)%float; [split; [reflexivity | now left] |].
  destruct (Z.ltb_spec graphHeight 1); [split; [reflexivity | now right] |].
  match goal with
  | |- context [NewValue ?v n] =>
      destruct (NewValue_ok v n) as (r1 & z1 & R1 & ->)
  end. cbn [bind].
  match goal with
  | |- context [NewValue ?v n] =>
      destruct (NewValue_ok v n) as (r2 & z2 & R2 & ->)
  end. cbn [bind].
  match goal with
  | |- context [NewValue ?v n] =>
      destruct (NewValue_ok v n) as (r3 & z3 & R3 & ->)
  end. cbn [bind].
  cbn [Min Max Step GraphHeight brailleHeight Value_ Rounded NonZeroDecimals].
  repeat split; try lia; try reflexivity.
  repeat constructor; cbn [Value_ Rounded NonZeroDecimals]; eauto.
Qed.

Lemma PixelToValue_in (ys : YScale) (y : Z) :
  1 <= brailleHeight ys <= GoInt.MaxInt64 -> 0 <= y < brailleHeight ys ->
  exists v, PixelToValue ys y = Ok v.
Proof.
  intros Hh Hy. unfold PixelToValue.
  rewrite yToPosition_in by (assumption || int_range). cbn [bind].
  destruct (_ =? 0); [eauto |]. destruct (_ =? _); eauto.
Qed.

Lemma PixelToValue_out (ys : YScale) (y : Z) :
  1 <= brailleHeight ys <= GoInt.MaxInt64 -> ~ 0 <= y < brailleHeight ys ->
  PixelToValue ys y = Err (ErrYCoordinate y 0 (brailleHeight ys - 1)).
Proof.
  intros Hh Hy. unfold PixelToValue.
  rewrite yToPosition_out by (assumption || int_range). reflexivity.
Qed.

Lemma PixelToValue_bottom (ys : YScale) :
  1 <= brailleHeight ys <= GoInt.MaxInt64 ->
  PixelToValue ys (brailleHeight ys - 1) = Ok (Rounded (Min ys)).
Proof.
  intros Hh. unfold PixelToValue.
  rewrite yToPosition_in by int_range. cbn [bind].
  replace (brailleHeight ys - 1 - (brailleHeight ys - 1)) with 0 by lia.
  reflexivity.
Qed.

(** X14 (PixelToValue, where it is defined).  On a scale with at least one
    pixel row, [PixelToValue] returns a value exactly on the rows 0 to
    brailleHeight - 1 and the error of the Y coordinate on every other row;
    the bottom row has the rounded minimum and, when there are two rows or
    more, the top row the rounded maximum. *)
Theorem PixelToValue_domain (ys : YScale) (y : Z) :
  1 <= brailleHeight ys <= GoInt.MaxInt64 ->
  (0 <= y < brailleHeight ys <-> exists v, PixelToValue ys y = Ok v) /\
  (~ 0 <= y < brailleHeight ys ->
   PixelToValue ys y = Err (ErrYCoordinate y 0 (brailleHeight ys - 1))) /\
  PixelToValue ys (brailleHeight ys - 1) = Ok (Rounded (Min ys)) /\
  (2 <= brailleHeight ys -> PixelToValue ys 0 = Ok (Rounded (Max ys))).
Proof.
  intros Hh.
  split; [split |]; [| | split; [| split]].
  - apply PixelToValue_in. exact Hh.
  - intros [v Hv].
    destruct (Z_le_dec 0 y) as [H0 | H0];
      [destruct (Z_lt_dec y (brailleHeight ys)) as [H1 | H1]; [lia |] |];
      rewrite PixelToValue_out in Hv by (assumption || lia); discriminate.
  - apply PixelToValue_out. exact Hh.
  - apply PixelToValue_bottom. exact Hh.
  - intros H2. unfold PixelToValue.
    rewrite yToPosition_in by int_range.
    cbn [bind]. rewrite sub_in_range by int_range.
    replace (brailleHeight ys - 1 - 0) with (brailleHeight ys - 1) by lia.
    destruct (Z.eqb_spec (brailleHeight ys - 1) 0); [lia |].
    rewrite Z.eqb_refl. reflexivity.
Qed.

Lemma PixelToValue_domain_witness :
  (0 <= 3 < 8 <->
   exists v, PixelToValue (mkYScale (mkValue 0 0 2) (mkValue 5 5 2)
                             (mkValue 0.7142857142857143 0.72 2) 2 8) 3
             = Ok v) /\
  (~ 0 <= 3 < 8 ->
   PixelToValue (mkYScale (mkValue 0 0 2) (mkValue 5 5 2)
                   (mkValue 0.7142857142857143 0.72 2) 2 8) 3
   = Err (ErrYCoordinate 3 0 (8 - 1))) /\
  PixelToValue (mkYScale (mkValue 0 0 2) (mkValue 5 5 2)
                  (mkValue 0.7142857142857143 0.72 2) 2 8) (8 - 1)
  = Ok 0%float /\
  (2 <= 8 ->
   PixelToValue (mkYScale (mkValue 0 0 2) (mkValue 5 5 2)
                   (mkValue 0.7142857142857143 0.72 2) 2 8) 0
   = Ok 5%float).
Proof.
  apply (PixelToValue_domain
           (mkYScale (mkValue 0 0 2) (mkValue 5 5 2)
              (mkValue 0.7142857142857143 0.72 2) 2 8) 3).
  cbn [brailleHeight]. unfold GoInt.MaxInt64. lia.
Defined.

(** X15 (ValueToPixel stays on the canvas).  On a scale with at least one
    pixel row, a row that [ValueToPixel] returns lies between 0 and
    brailleHeight - 1, whatever the value; and the only error it returns
    is that of a position outside of these rows. *)
Theorem ValueToPixel_in_canvas (ys : YScale) (v : float) :
  1 <= brailleHeight ys <= GoInt.MaxInt64 ->
  match ValueToPixel ys v with
  | Ok y => 0 <= y < brailleHeight ys
  | Err e =>
      exists pos, e = ErrPosition pos 0 (brailleHeight ys - 1) /\
                  ~ 0 <= pos < brailleHeight ys
  | OutOfFuel => False
  end.
Proof.
  intros Hh. unfold ValueToPixel.
  destruct (Rounded (Step ys) =? 0)%float; [lia |].
  match goal with |- context [positionToY ?p _] => set (pos := p) end.
  assert (Hh' : GoInt.MinInt64 < brailleHeight ys <= GoInt.MaxInt64)
    by int_range.
  destruct (Z_le_dec 0 pos) as [H0 | H0];
    [destruct (Z_lt_dec pos (brailleHeight ys)) as [H1 | H1] |].
  - rewrite positionToY_in by (assumption || lia). lia.
  - rewrite positionToY_out by (assumption || lia).
    exists pos. split; [reflexivity | lia].
  - rewrite positionToY_out by (assumption || lia).
    exists pos. split; [reflexivity | lia].
Qed.

Lemma ValueToPixel_in_canvas_witness :
  match ValueToPixel (mkYScale (mkValue 0 0 2) (mkValue 5 5 2)
                        (mkValue 0.7142857142857143 0.72 2) 2 8) 2.88 with
  | Ok y => 0 <= y < 8
  | Err e => exists pos, e = ErrPosition pos 0 (8 - 1) /\ ~ 0 <= pos < 8
  | OutOfFuel => False
  end.
Proof.
  apply (ValueToPixel_in_canvas
           (mkYScale (mkValue 0 0 2) (mkValue 5 5 2)
              (mkValue 0.7142857142857143 0.72 2) 2 8) 2.88).
  cbn [brailleHeight]. unfold GoInt.MaxInt64. lia.
Defined.

Lemma NewYScale_decimals (RowMult : Z) (min max : float)
  (graphHeight n : Z) (ys : YScale) :
  NewYScale RowMult min max graphHeight n = Ok ys ->
  NonZeroDecimals (Min ys) = n.
Proof.
  unfold NewYScale.
  destruct (max <? min)%float; [discriminate |].
  destruct (graphHeight <? 1); [discriminate |].
  match goal with
  | |- context [NewValue ?v n] =>
      destruct (NewValue_ok v n) as (r1 & z1 & R1 & ->)
  end. cbn [bind].
  match goal with
  | |- context [NewValue ?v n] =>
      destruct (NewValue_ok v n) as (r2 & z2 & R2 & ->)
  end. cbn [bind].
  match goal with
  | |- context [NewValue ?v n] =>
      destruct (NewValue_ok v n) as (r3 & z3 & R3 & ->)
  end. cbn [bind].
  intros [= <-]. reflexivity.
Qed.

(** X16 (CellLabel).  On a scale that [NewYScale] has returned, with at
    least one pixel row in a cell and no overflow of the number of rows,
    [CellLabel] returns a label exactly on the cell rows 0 to
    graphHeight - 1 and the error of the Y coordinate on every other row.
    The label of the cell row y is the value of the lowest pixel row of
    that cell, the row (y + 1) * RowMult - 1, made into a value with the
    precision of the scale; on the bottom cell row it is the rounded
    minimum. *)
Theorem CellLabel_lowest_pixel_row (RowMult : Z) (min max : float)
  (graphHeight n : Z) (ys : YScale) (y : Z) :
  1 <= RowMult -> graphHeight * RowMult <= GoInt.MaxInt64 ->
  NewYScale RowMult min max graphHeight n = Ok ys ->
  (0 <= y < graphHeight ->
   exists (p : float) (label : Value),
     PixelToValue ys ((y + 1) * RowMult - 1) = Ok p /\
     CellLabel RowMult ys y = Ok label /\
     NewValue p n = Ok label) /\
  (~ 0 <= y < graphHeight ->
   CellLabel RowMult ys y = Err (ErrYCoordinate y 0 (graphHeight - 1))) /\
  CellLabel RowMult ys (graphHeight - 1) = NewValue (Rounded (Min ys)) n.
Proof.
  intros HR Hmax HN.
  destruct (NewYScale_inv RowMult min max graphHeight n ys HN)
    as (_ & Hgh & _ & _ & EG & EB).
  pose proof (NewYScale_decimals RowMult min max graphHeight n ys HN) as Hn.
  assert (Hprod : graphHeight <= graphHeight * RowMult) by nia.
  assert (EB' : brailleHeight ys = graphHeight * RowMult).
  { rewrite EB. apply wrap_in_range. int_range. }
  assert (HG : GoInt.MinInt64 < graphHeight <= GoInt.MaxInt64) by int_range.
  assert (HB : GoInt.MinInt64 < brailleHeight ys <= GoInt.MaxInt64)
    by int_range.
  assert (HB1 : 1 <= brailleHeight ys <= GoInt.MaxInt64) by int_range.
  assert (Hin : forall c, 0 <= c < graphHeight ->
            exists p label,
              PixelToValue ys ((c + 1) * RowMult - 1) = Ok p /\
              CellLabel RowMult ys c = Ok label /\ NewValue p n = Ok label).
  { intros c Hc. unfold CellLabel. rewrite EG, Hn.
    rewrite yToPosition_in by assumption. cbn [bind].
    assert (Hpos : 0 <= (graphHeight - 1 - c) * RowMult
                   <= (graphHeight - 1) * RowMult) by nia.
    unfold GoInt.mul. rewrite wrap_in_range by int_range.
    rewrite positionToY_in by (assumption || nia). cbn [bind].
    replace (brailleHeight ys - 1 - (graphHeight - 1 - c) * RowMult)
      with ((c + 1) * RowMult - 1) by (rewrite EB'; ring).
    assert (Hpix : 0 <= (c + 1) * RowMult - 1 < brailleHeight ys) by nia.
    destruct (PixelToValue_in ys _ HB1 Hpix) as [p Hp].
    rewrite Hp. cbn [bind].
    destruct (NewValue_ok p n) as (r & z & _ & Hv).
    exists p, (mkValue p r n). repeat split; assumption. }
  split; [exact (Hin y) | split].
  - intros Hy. unfold CellLabel. rewrite EG.
    rewrite yToPosition_out by assumption. reflexivity.
  - destruct (Hin (graphHeight - 1)) as (p & label & Hp & Hc & Hv); [lia |].
    rewrite Hc, <- Hv. f_equal.
    replace ((graphHeight - 1 + 1) * RowMult - 1)
      with (brailleHeight ys - 1) in Hp by (rewrite EB'; ring).
    rewrite (PixelToValue_bottom ys HB1) in Hp. now injection Hp.
Qed.

Lemma CellLabel_lowest_pixel_row_witness :
  exists ys,
    NewYScale 4 0 5 2 2 = Ok ys /\
    (0 <= 0 < 2 ->
     exists (p : float) (label : Value),
       PixelToValue ys ((0 + 1) * 4 - 1) = Ok p /\
       CellLabel 4 ys 0 = Ok label /\
       NewValue p 2 = Ok label) /\
    (~ 0 <= 0 < 2 ->
     CellLabel 4 ys 0 = Err (ErrYCoordinate 0 0 (2 - 1))) /\
    CellLabel 4 ys (2 - 1) = NewValue (Rounded (Min ys)) 2.
Proof.
  eexists. split; [vm_compute; reflexivity |].
  apply (CellLabel_lowest_pixel_row 4 0 5 2 2 _ 0).
  - lia.
  - unfold GoInt.MaxInt64. lia.
  - vm_compute. reflexivity.
Defined.

(** The fields of a scale that [NewXScale] has returned. *)
Lemma NewXScale_inv (ColMult numPoints graphWidth n : Z) (xs : XScale) :
  NewXScale ColMult numPoints graphWidth n = Ok xs ->
  0 <= numPoints /\ 1 <= graphWidth /\ GraphWidth xs = graphWidth /\
  brailleWidth xs = GoInt.mul graphWidth ColMult /\
  XMin xs = mkValue 0 0 n /\
  Value_ (XStep xs)
  = ((Value_ (XMax xs) - 0) / of_int (GoInt.sub (brailleWidth xs) 1))%float /\
  NonZeroDecimals (XStep xs) = n /\
  (exists z, RoundToNonZeroPlaces (Value_ (XStep xs)) n
             = Some (Rounded (XStep xs), z)) /\
  (numPoints <= 2 ^ 53 ->
   XMax xs = mkValue (of_int (Z.max 0 (numPoints - 1)))
                     (of_int (Z.max 0 (numPoints - 1))) n).
Proof.
  unfold NewXScale.
  destruct (Z.ltb_spec numPoints 0); [discriminate |].
  destruct (Z.ltb_spec graphWidth 1); [discriminate |].
  match goal with
  | |- context [NewValue ?v n] =>
      destruct (NewValue_ok v n) as (r1 & z1 & R1 & ->)
  end. cbn [bind].
  change (NewValue 0 n) with (Ok (mkValue 0 0 n)). cbn [bind].
  match goal with
  | |- context [NewValue ?v n] =>
      destruct (NewValue_ok v n) as (r3 & z3 & R3 & E3)
  end.
  rewrite E3. cbn [bind]. intros [= <-].
  cbn [XMin XMax XStep GraphWidth brailleWidth Value_ Rounded NonZeroDecimals].
  repeat split; try lia; try reflexivity; [eauto |].
  intros Hnp. change (2 ^ 53) with 9007199254740992 in Hnp.
  rewrite sub_in_range in E3 |- * by int_range.
  assert (Emax : (if (of_int (numPoints - 1) <? 0)%float then 0%float
                  else of_int (numPoints - 1))
                 = of_int (Z.max 0 (numPoints - 1))).
  { destruct (of_int_integral (numPoints - 1)) as (_ & _ & -> & _).
    { change (2 ^ 53) with 9007199254740992. lia. }
    destruct (Z.ltb_spec (numPoints - 1) 0).
    - rewrite Z.max_l by lia. reflexivity.
    - rewrite Z.max_r by lia. reflexivity. }
  rewrite Emax in E3 |- *.
  rewrite NewValue_of_int in E3
    by (change (2 ^ 53) with 9007199254740992; lia).
  injection E3 as <-. reflexivity.
Qed.

(** X17 (NewXScale, all outcomes).  For up to 2^53 points [NewXScale]
    returns one of three things.  An error for a negative number of points,
    which comes first; else an error for a graph width below 1; else a
    scale, never anything else, which keeps the graph width, has as many
    pixel columns as the width times the columns of a cell, a minimum of 0
    and a maximum of the last index, numPoints - 1 (0 for no points), both
    rounded to themselves, and a step that is the maximum divided by the
    number of columns less one, rounded by [RoundToNonZeroPlaces]. *)
Theorem NewXScale_outcome (ColMult numPoints graphWidth n : Z) :
  numPoints <= 2 ^ 53 ->
  match NewXScale ColMult numPoints graphWidth n with
  | Ok xs =>
      0 <= numPoints /\ 1 <= graphWidth /\
      GraphWidth xs = graphWidth /\
      brailleWidth xs = GoInt.mul graphWidth ColMult /\
      XMin xs = mkValue 0 0 n /\
      XMax xs = mkValue (of_int (Z.max 0 (numPoints - 1)))
                        (of_int (Z.max 0 (numPoints - 1))) n /\
      Value_ (XStep xs)
      = ((Value_ (XMax xs) - 0)
         / of_int (GoInt.sub (brailleWidth xs) 1))%float /\
      NonZeroDecimals (XStep xs) = n /\
      exists z, RoundToNonZeroPlaces (Value_ (XStep xs)) n
                = Some (Rounded (XStep xs), z)
  | Err e =>
      e = (if numPoints <? 0 then ErrNumPoints numPoints
           else ErrGraphWidth 1 graphWidth) /\
      (numPoints < 0 \/ graphWidth < 1)
  | OutOfFuel => False
  end.
Proof.
  intros Hnp.
  destruct (NewXScale ColMult numPoints graphWidth n) as [xs | e |] eqn:E.
  - destruct (NewXScale_inv _ _ _ _ _ E)
      as (H1 & H2 & H3 & H4 & H5 & H6 & H7 & H8 & H9).
    repeat split; try assumption. exact (H9 Hnp).
  - unfold NewXScale in E.
    destruct (Z.ltb_spec numPoints 0);
      [injection E as <-; split; [reflexivity | now left] |].
    destruct (Z.ltb_spec graphWidth 1);
      [injection E as <-; split; [reflexivity | now right] |].
    exfalso. revert E.
    repeat (match goal with
            | |- context [NewValue ?v n] =>
                let r := fresh "r" in let z := fresh "z" in
                destruct (NewValue_ok v n) as (r & z & _ & ->)
            end; cbn [bind]).
    discriminate.
  - unfold NewXScale in E.
    destruct (numPoints <? 0); [discriminate |].
    destruct (graphWidth <? 1); [discriminate |].
    exfalso. revert E.
    repeat (match goal with
            | |- context [NewValue ?v n] =>
                let r := fresh "r" in let z := fresh "z" in
                destruct (NewValue_ok v n) as (r & z & _ & ->)
            end; cbn [bind]).
    discriminate.
Qed.

Lemma NewXScale_outcome_witness :
  match NewXScale 2 4 100 2 with
  | Ok xs =>
      0 <= 4 /\ 1 <= 100 /\
      GraphWidth xs = 100 /\
      brailleWidth xs = GoInt.mul 100 2 /\
      XMin xs = mkValue 0 0 2 /\
      XMax xs = mkValue (of_int (Z.max 0 (4 - 1)))
                        (of_int (Z.max 0 (4 - 1))) 2 /\
      Value_ (XStep xs)
      = ((Value_ (XMax xs) - 0)
         / of_int (GoInt.sub (brailleWidth xs) 1))%float /\
      NonZeroDecimals (XStep xs) = 2 /\
      exists z, RoundToNonZeroPlaces (Value_ (XStep xs)) 2
                = Some (Rounded (XStep xs), z)
  | Err e =>
      e = (if 4 <? 0 then ErrNumPoints 4 else ErrGraphWidth 1 100) /\
      (4 < 0 \/ 100 < 1)
  | OutOfFuel => False
  end.
Proof. apply (NewXScale_outcome 2 4 100 2). simpl. lia. Defined.

Lemma XPixelToValue_in (xs : XScale) (x : Z) :
  0 <= x < brailleWidth xs -> exists p, XPixelToValue xs x = Ok p.
Proof.
  intros Hx. unfold XPixelToValue.
  destruct (Z.ltb_spec x 0); [lia |].
  destruct (Z.leb_spec (brailleWidth xs) x); [lia |]. cbn [orb].
  destruct (x =? 0); [eauto |]. destruct (x =? _); eauto.
Qed.

Lemma XPixelToValue_out (xs : XScale) (x : Z) :
  ~ 0 <= x < brailleWidth xs ->
  XPixelToValue xs x = Err (ErrXCoordinate x 0 (brailleWidth xs)).
Proof.
  intros Hx. unfold XPixelToValue.
  destruct (Z.ltb_spec x 0); [reflexivity |].
  destruct (Z.leb_spec (brailleWidth xs) x); [reflexivity | lia].
Qed.

(** X18 (the labels of the X axis).  On a scale that [NewXScale] has
    returned, with at least one pixel column in a cell and no overflow of
    the number of columns, [XScale.CellLabel] returns a label on every cell
    column 0 to graphWidth - 1: the value of the first pixel column of the
    cell, rounded by [Round], with the precision of the scale.  When that
    value is finite the label is an integer, the nearest to it and the
    farther from zero of two at the same distance, and it is rounded to
    itself.  Outside of these columns the function returns the error of the
    X coordinate, as long as the coordinate times the columns of a cell is
    an [int]; the first column is labelled 0. *)
Theorem XCellLabel_nearest_integer (ColMult numPoints graphWidth n : Z)
  (xs : XScale) (x : Z) :
  1 <= ColMult -> graphWidth * ColMult <= GoInt.MaxInt64 ->
  NewXScale ColMult numPoints graphWidth n = Ok xs ->
  (0 <= x < graphWidth ->
   exists p : float,
     XPixelToValue xs (x * ColMult) = Ok p /\
     (is_finite p = false ->
      exists r, XCellLabel ColMult xs x = Ok (mkValue (Round p) r n)) /\
     (is_finite p = true ->
      XCellLabel ColMult xs x
      = Ok (mkValue (Round p)
              (if (Round p =? 0)%float then 0%float else Round p) n) /\
      exists z : Z,
        (float_to_Q (Round p) == inject_Z z)%Q /\
        nearest_half_away (float_to_Q p) z)) /\
  (~ 0 <= x < graphWidth -> GoInt.in_range (x * ColMult) ->
   XCellLabel ColMult xs x
   = Err (ErrXCoordinate (x * ColMult) 0 (graphWidth * ColMult))) /\
  XCellLabel ColMult xs 0 = Ok (mkValue 0 0 n).
Proof.
  intros HC Hmax HN.
  destruct (NewXScale_inv _ _ _ _ _ HN) as (_ & Hgw & _ & EB & EMin & _).
  assert (Hprod : graphWidth <= graphWidth * ColMult) by nia.
  assert (EB' : brailleWidth xs = graphWidth * ColMult).
  { rewrite EB. apply wrap_in_range. int_range. }
  assert (Hn : NonZeroDecimals (XMin xs) = n) by (rewrite EMin; reflexivity).
  split; [| split].
  - intros Hx.
    assert (Hpix : 0 <= x * ColMult < brailleWidth xs) by nia.
    destruct (XPixelToValue_in xs _ Hpix) as [p Hp].
    exists p. split; [exact Hp |].
    unfold XCellLabel, GoInt.mul. rewrite wrap_in_range by int_range.
    rewrite Hp, Hn. cbn [bind]. split.
    + intros _. destruct (NewValue_ok (Round p) n) as (r & z & _ & ->). eauto.
    + intros Hf. split.
      * destruct (Round_nearest p Hf) as (z & HfR & _ & _).
        exact (NewValue_integral _ n HfR (Trunc_Round p Hf)).
      * destruct (Round_nearest p Hf) as (z & _ & HQ & HN'). eauto.
  - intros Hx Hr.
    unfold XCellLabel, GoInt.mul. rewrite wrap_in_range by exact Hr.
    rewrite XPixelToValue_out by (rewrite EB'; nia).
    rewrite EB'. reflexivity.
  - unfold XCellLabel, GoInt.mul. rewrite Z.mul_0_l.
    change (GoInt.wrap 0) with 0.
    unfold XPixelToValue.
    destruct (Z.leb_spec (brailleWidth xs) 0); [lia |].
    cbn. rewrite EMin. cbn. reflexivity.
Qed.

Lemma XCellLabel_nearest_integer_witness :
  exists xs,
    NewXScale 2 4 100 2 = Ok xs /\
    (0 <= 31 < 100 ->
     exists p : float,
       XPixelToValue xs (31 * 2) = Ok p /\
       (is_finite p = false ->
        exists r, XCellLabel 2 xs 31 = Ok (mkValue (Round p) r 2)) /\
       (is_finite p = true ->
        XCellLabel 2 xs 31
        = Ok (mkValue (Round p)
                (if (Round p =? 0)%float then 0%float else Round p) 2) /\
        exists z : Z,
          (float_to_Q (Round p) == inject_Z z)%Q /\
          nearest_half_away (float_to_Q p) z)) /\
    (~ 0 <= 31 < 100 -> GoInt.in_range (31 * 2) ->
     XCellLabel 2 xs 31 = Err (ErrXCoordinate (31 * 2) 0 (100 * 2))) /\
    XCellLabel 2 xs 0 = Ok (mkValue 0 0 2).
Proof.
  eexists. split; [vm_compute; reflexivity |].
  apply (XCellLabel_nearest_integer 2 4 100 2 _ 31).
  - lia.
  - unfold GoInt.MaxInt64. lia.
  - vm_compute. reflexivity.
Defined.

(** X19 (the values the X scale accepts).  On a scale that [NewXScale] has
    returned for up to 2^53 points, [XScale.ValueToPixel] of a value below
    2^53 in magnitude returns a pixel exactly when the value is an index of
    the series, 0 to numPoints - 1 (0 alone for no points), and the error
    of the value otherwise.  [ValueToCell] fails with the same error and
    otherwise returns the pixel divided by the columns of a cell, so that a
    pixel that is not negative lies in the cell returned. *)
Theorem XValueToPixel_accepts_indices (ColMult numPoints graphWidth n : Z)
  (xs : XScale) (v : Z) :
  numPoints <= 2 ^ 53 -> Z.abs v < 2 ^ 53 ->
  NewXScale ColMult numPoints graphWidth n = Ok xs ->
  match XValueToPixel xs v with
  | Ok p =>
      0 <= v <= Z.max 0 (numPoints - 1) /\
      XValueToCell ColMult xs v = Ok (GoInt.quot p ColMult) /\
      (1 <= ColMult -> 0 <= p <= GoInt.MaxInt64 ->
       GoInt.quot p ColMult * ColMult <= p
       < (GoInt.quot p ColMult + 1) * ColMult)
  | Err e =>
      (v < 0 \/ Z.max 0 (numPoints - 1) < v) /\
      e = ErrXValue v 0 (of_int (Z.max 0 (numPoints - 1))) /\
      XValueToCell ColMult xs v = Err e
  | OutOfFuel => False
  end.
Proof.
  intros Hnp Hv HN.
  destruct (NewXScale_inv _ _ _ _ _ HN)
    as (H0 & _ & _ & _ & EMin & _ & _ & _ & EMax).
  specialize (EMax Hnp).
  assert (Hr : XValueToPixel xs v
               = if (v <? 0) || (Z.max 0 (numPoints - 1) <? v)
                 then Err (ErrXValue v 0 (of_int (Z.max 0 (numPoints - 1))))
                 else if (Rounded (XStep xs) =? 0)%float then Ok 0
                      else Ok (to_int (Round (of_int v / Rounded (XStep xs))))).
  { unfold XValueToPixel. rewrite EMin, EMax. cbn [Value_ Rounded].
    change (2 ^ 53) with 9007199254740992 in *.
    rewrite <- (of_int_ltb v 0), <- (of_int_ltb (Z.max 0 (numPoints - 1)) v)
      by (change (2 ^ 53) with 9007199254740992; lia).
    reflexivity. }
  unfold XValueToCell. rewrite Hr. clear Hr.
  change (2 ^ 53) with 9007199254740992 in *.
  destruct (Z.ltb_spec v 0) as [L | L]; cbn [orb bind].
  { repeat split. left; lia. }
  destruct (Z.ltb_spec (Z.max 0 (numPoints - 1)) v) as [G | G]; cbn [bind].
  { repeat split. right; lia. }
  assert (Q : forall p, 1 <= ColMult -> 0 <= p <= GoInt.MaxInt64 ->
              GoInt.quot p ColMult * ColMult <= p
              < (GoInt.quot p ColMult + 1) * ColMult).
  { intros p HC Hp. unfold GoInt.quot.
    assert (Hq : 0 <= Z.quot p ColMult <= p).
    { split; [apply Z.quot_pos; lia |].
      rewrite Z.quot_div_nonneg by lia.
      apply Z.div_le_upper_bound; nia. }
    rewrite wrap_in_range by int_range.
    rewrite Z.quot_div_nonneg by lia.
    pose proof (Z.div_mod p ColMult ltac:(lia)).
    pose proof (Z.mod_pos_bound p ColMult ltac:(lia)). nia. }
  destruct (_ =? 0)%float; cbn [bind];
    (split; [lia |]); (split; [reflexivity |]); apply Q.
Qed.

Lemma XValueToPixel_accepts_indices_witness :
  exists xs,
    NewXScale 2 4 100 2 = Ok xs /\
    match XValueToPixel xs 3 with
    | Ok p =>
        0 <= 3 <= Z.max 0 (4 - 1) /\
        XValueToCell 2 xs 3 = Ok (GoInt.quot p 2) /\
        (1 <= 2 -> 0 <= p <= GoInt.MaxInt64 ->
         GoInt.quot p 2 * 2 <= p < (GoInt.quot p 2 + 1) * 2)
    | Err e =>
        (3 < 0 \/ Z.max 0 (4 - 1) < 3) /\
        e = ErrXValue 3 0 (of_int (Z.max 0 (4 - 1))) /\
        XValueToCell 2 xs 3 = Err e
    | OutOfFuel => False
    end.
Proof.
  eexists. split; [vm_compute; reflexivity |].
  apply (XValueToPixel_accepts_indices 2 4 100 2 _ 3).
  - simpl. lia.
  - simpl. lia.
  - vm_compute. reflexivity.
Defined.

End ScaleProperties.

(** ** The bar chart *)

Section BarChartProperties.

Import barchart.

Lemma validateValues_from_None (vals : list Z) :
  forall i max,
    validateValues_from i vals max = None <->
    Forall (fun v => 0 <= v <= max) vals.
Proof.
  induction vals as [| v rest IH]; intros i max; cbn [validateValues_from].
  - split; [constructor | reflexivity].
  - destruct (Z.ltb_spec v 0); destruct (Z.ltb_spec max v); cbn [orb];
      try (split; [discriminate | intros F; apply Forall_inv in F; lia]).
    rewrite IH. split.
    + intros F. constructor; [lia | exact F].
    + intros F. exact (Forall_inv_tail F).
Qed.

Lemma validateValues_from_Some (vals : list Z) :
  forall i max e,
    validateValues_from i vals max = Some e ->
    exists (k : nat) (v : Z),
      e = ErrValue (i + Z.of_nat k) v /\
      nth_error vals k = Some v /\ (v < 0 \/ max < v) /\
      Forall (fun w => 0 <= w <= max) (firstn k vals).
Proof.
  induction vals as [| v rest IH]; intros i max e; cbn [validateValues_from].
  - discriminate.
  - destruct (Z.ltb_spec v 0); destruct (Z.ltb_spec max v); cbn [orb];
      try (intros [= <-]; exists 0%nat, v; rewrite Z.add_0_r;
           repeat split; [lia | constructor]).
    intros HS. destruct (IH _ _ _ HS) as (k & w & -> & Hn & Hw & F).
    exists (S k), w. repeat split.
    + f_equal. lia.
    + exact Hn.
    + exact Hw.
    + cbn [firstn]. constructor; [lia | exact F].
Qed.

(** X20 (validateValues and Values).  [validateValues] returns no error
    exactly when the maximum is at least 1 and every value lies between 0
    and the maximum.  The error of the maximum comes first; the error of a
    value names the first value out of range and its index, all the values
    before it being in range.  [Values] returns the error and leaves the
    chart as it was, or stores the values and the maximum and returns no
    error. *)
Theorem validateValues_first_offender (vals : list Z) (max : Z) :
  (validateValues vals max = None <->
   1 <= max /\ Forall (fun v => 0 <= v <= max) vals) /\
  (forall m, validateValues vals max = Some (ErrMaximum m) ->
             m = max /\ max < 1) /\
  (forall i v, validateValues vals max = Some (ErrValue i v) ->
     1 <= max /\ (v < 0 \/ max < v) /\
     exists k : nat,
       i = Z.of_nat k /\ nth_error vals k = Some v /\
       Forall (fun w => 0 <= w <= max) (firstn k vals)) /\
  (forall bc given,
     match validateValues vals max with
     | None =>
         exists o, Values bc vals max given = (mkBarChart vals max o, None)
     | Some e => Values bc vals max given = (bc, Some e)
     end).
Proof.
  unfold Values, validateValues.
  destruct (Z.ltb_spec max 1) as [L | G].
  - split; [split; [discriminate | lia] |].
    split; [intros m [= <-]; lia |].
    split; [discriminate | reflexivity].
  - split; [rewrite validateValues_from_None; split; [tauto | tauto] |].
    split.
    { intros m H.
      destruct (validateValues_from_Some _ _ _ _ H) as (k & v & E & _).
      discriminate. }
    split.
    { intros i v H. destruct (validateValues_from_Some _ _ _ _ H)
        as (k & w & E & Hn & Hw & F).
      injection E as -> ->. split; [lia |]. split; [exact Hw |].
      exists k. repeat split; assumption || lia. }
    intros bc given. destruct (validateValues_from 0 vals max); eauto.
Qed.

(** X21 (barWidth and minSize).  For a chart with at least one bar and a
    gap that is not negative, [minSize] asks for the width of the bars at
    their least width, the width of the options or 1, and of the gaps
    between them, and for one row, two with labels.  On a canvas at least
    that wide, [barWidth] is at least the least width, and the bars at
    that width with their gaps fit in the width of the canvas. *)
Theorem barWidth_fits_minSize (bc : BarChart) (dx : Z) :
  let bars := len (values bc) in
  let gap := opt_barGap (opts bc) in
  let minBarWidth := Z.max 1 (opt_barWidth (opts bc)) in
  1 <= bars -> 0 <= gap ->
  bars * minBarWidth + (bars - 1) * gap <= dx <= GoInt.MaxInt64 ->
  minSize bc = (bars * minBarWidth + (bars - 1) * gap,
                if 0 <? len (opt_labels (opts bc)) then 2 else 1) /\
  minBarWidth <= barWidth bc dx /\
  bars * barWidth bc dx + (bars - 1) * gap <= dx.
Proof.
  intros bars gap mbw Hb Hg Hdx. unfold minSize, barWidth.
  fold bars gap.
  destruct (Z.eqb_spec bars 0); [lia |].
  assert (Hm : 1 <= mbw) by (unfold mbw; lia).
  assert (Hprod : 0 <= (bars - 1) * gap) by nia.
  assert (Hbm : bars <= bars * mbw) by nia.
  assert (Hmb : mbw <= bars * mbw) by nia.
  rewrite sub_in_range by int_range.
  split; [| split].
  - apply f_equal2; [| destruct (0 <? _); reflexivity].
    replace (if opt_barWidth (opts bc) <? 1 then 1 else opt_barWidth (opts bc))
      with mbw
      by (unfold mbw; destruct (Z.ltb_spec (opt_barWidth (opts bc)) 1); lia).
    unfold GoInt.add, GoInt.mul.
    rewrite (wrap_in_range (bars * mbw)) by int_range.
    rewrite (wrap_in_range ((bars - 1) * gap)) by int_range.
    apply wrap_in_range. int_range.
  - destruct (Z.leb_spec 1 (opt_barWidth (opts bc))); [unfold mbw; lia |].
    assert (mbw = 1) by (unfold mbw; lia).
    unfold GoInt.mul, GoInt.sub, GoInt.quot.
    rewrite (wrap_in_range ((bars - 1) * gap)) by int_range.
    rewrite (wrap_in_range (dx - _)) by int_range.
    assert (Hq : 1 <= Z.quot (dx - (bars - 1) * gap) bars <= dx).
    { rewrite Z.quot_div_nonneg by lia. split.
      - apply Z.div_le_lower_bound; lia.
      - apply Z.div_le_upper_bound; nia. }
    rewrite wrap_in_range by int_range. lia.
  - destruct (Z.leb_spec 1 (opt_barWidth (opts bc)));
      [replace (opt_barWidth (opts bc)) with mbw by (unfold mbw; lia); lia |].
    unfold GoInt.mul, GoInt.sub, GoInt.quot.
    rewrite (wrap_in_range ((bars - 1) * gap)) by int_range.
    rewrite (wrap_in_range (dx - _)) by int_range.
    assert (Hq : 0 <= Z.quot (dx - (bars - 1) * gap) bars <= dx).
    { rewrite Z.quot_div_nonneg by lia. split.
      - apply Z.div_pos; lia.
      - apply Z.div_le_upper_bound; nia. }
    rewrite wrap_in_range by int_range.
    rewrite Z.quot_div_nonneg by lia.
    pose proof (Z.mul_div_le (dx - (bars - 1) * gap) bars ltac:(lia)). lia.
Qed.

Lemma barWidth_fits_minSize_witness :
  minSize (mkBarChart [1; 2; 3] 3 (mkOptions 0 1 [])) = (5, 1) /\
  1 <= barWidth (mkBarChart [1; 2; 3] 3 (mkOptions 0 1 [])) 10 /\
  3 * barWidth (mkBarChart [1; 2; 3] 3 (mkOptions 0 1 [])) 10 + (3 - 1) * 1
  <= 10.
Proof.
  apply (barWidth_fits_minSize (mkBarChart [1; 2; 3] 3 (mkOptions 0 1 [])) 10).
  - unfold len. simpl. lia.
  - simpl. lia.
  - unfold len, GoInt.MaxInt64. simpl. lia.
Defined.

End BarChartProperties.
